(** * gemini-voice-input: the transcription gateway and the recording client

    A shallow embedding of [src/index.tsx] (the Bun server with its
    [POST /api/transcribe] route) and of [src/App.tsx] (the React component
    that records from the microphone and accumulates the transcript),
    followed by the properties of the specification that they satisfy or
    break.

    Layout: [Js] holds what both programs share of the JavaScript runtime
    (thrown values, JSON values, truthiness, string conversion); [Gateway]
    is the server; [App] is the client, as a transition system over the
    tasks of the browser's event loop.  All theorems come after the
    definitions. *)

From Stdlib Require Import ZArith NArith QArith_base.
From Stdlib.Strings Require Import Ascii String Byte.
From stdpp Require Import base list strings.

Local Open Scope stdpp_scope.
#[local] Set Warnings "-register-all".

(* ===================================================================== *)
(** ** The JavaScript values the two programs handle *)
(* ===================================================================== *)

Module Js.

(** A thrown value, as the [catch] clauses of the source observe it:
    [err instanceof Error ? err.message : <default>] and [e.message].
    [NonError] is any thrown value that is not an [Error] instance and
    carries no [message] property. *)
Inductive Thrown : Type :=
| ErrorObj (message : string)
| NonError.

(** [e.message] for [e : any]: [None] is [undefined]. *)
Definition message_of (t : Thrown) : option string :=
  match t with
  | ErrorObj m => Some m
  | NonError => None
  end.

(** [err instanceof Error ? err.message : dflt] *)
Definition messageOr (dflt : string) (t : Thrown) : string :=
  match t with
  | ErrorObj m => m
  | NonError => dflt
  end.

(** A JSON number as these programs observe it: through [ToBoolean]
    (false for zero) and through [ToString]. *)
Record Number : Type := { num_nonzero : bool; num_text : string }.

(** The values [JSON.parse] produces and [JSON.stringify] consumes.  An
    object keeps its members in source order; a repeated key is resolved
    by [lookup_member]. *)
Inductive Json : Type :=
| JNull
| JBool (b : bool)
| JNumber (n : Number)
| JString (s : string)
| JArray (items : list Json)
| JObject (members : list (string * Json)).

(** A JavaScript value read out of a parsed body: [None] is [undefined]. *)
Definition Value : Type := option Json.

(** [JSON.parse] lets the last occurrence of a repeated key win. *)
Fixpoint lookup_member (k : string) (members : list (string * Json)) : Value :=
  match members with
  | [] => None
  | (k', v) :: rest =>
      match lookup_member k rest with
      | Some later => Some later
      | None => if decide (k' = k) then Some v else None
      end
  end.

(** The message of the [TypeError] raised by a property read on [null]
    (the wording is the engine's; V8's is used). *)
Definition nullReadMessage (k : string) : string :=
  "Cannot read properties of null (reading '" +:+ k +:+ "')".

(** [result.k] for one of the keys the client reads ([error], [details],
    [transcription]); none of them is a property of a primitive or of an
    array, and reading any property of [null] throws. *)
Definition getProp (result : Json) (k : string) : Thrown + Value :=
  match result with
  | JNull => inl (ErrorObj (nullReadMessage k))
  | JObject members => inr (lookup_member k members)
  | _ => inr None
  end.

(** [ToBoolean] *)
Definition truthy (v : Value) : bool :=
  match v with
  | None => false
  | Some JNull => false
  | Some (JBool b) => b
  | Some (JNumber n) => num_nonzero n
  | Some (JString s) => bool_decide (s ≠ "")
  | Some (JArray _) => true
  | Some (JObject _) => true
  end.

(** The message of the [TypeError] raised when an object has no usable
    [toString] or [valueOf] (the wording is the engine's; V8's is used). *)
Definition notPrimitiveMessage : string :=
  "Cannot convert object to primitive value".

(** [ToString] on a parsed JSON value.  An array is joined with commas,
    [null] items rendering as the empty string.  An object renders through
    [Object.prototype.toString], unless it has a member [toString] of its
    own: that member is not callable, the inherited [valueOf] returns the
    object itself, and the conversion throws. *)
Fixpoint toString (v : Json) : Thrown + string :=
  match v with
  | JNull => inr "null"
  | JBool true => inr "true"
  | JBool false => inr "false"
  | JNumber n => inr (num_text n)
  | JString s => inr s
  | JArray items =>
      (fix join (l : list Json) : Thrown + string :=
         match l with
         | [] => inr ""
         | x :: rest =>
             match match x with JNull => inr "" | _ => toString x end with
             | inl err => inl err
             | inr item =>
                 match rest with
                 | [] => inr item
                 | _ =>
                     match join rest with
                     | inl err => inl err
                     | inr tail => inr (item +:+ "," +:+ tail)
                     end
                 end
             end
         end) items
  | JObject members =>
      match lookup_member "toString" members with
      | Some _ => inl (ErrorObj notPrimitiveMessage)
      | None => inr "[object Object]"
      end
  end.

(** [ToString] on a value that may be [undefined]. *)
Definition valueToString (v : Value) : Thrown + string :=
  match v with
  | None => inr "undefined"
  | Some j => toString j
  end.

(** [throw new Error(v)]: the value thrown.  The message is [ToString] of
    [v] (empty for [undefined]); when that conversion throws, its
    [TypeError] is what is thrown. *)
Definition newError (v : Value) : Thrown :=
  match v with
  | None => ErrorObj ""
  | Some j =>
      match toString j with
      | inr message => ErrorObj message
      | inl err => err
      end
  end.

(** [a || b] *)
Definition or_else (a b : Value) : Value := if truthy a then a else b.

(** An object literal handed to [JSON.stringify]: members whose value is
    [undefined] are dropped. *)
Definition objectLiteral (fields : list (string * Value)) : Json :=
  JObject (omap (λ '(k, v), pair k <$> v) fields).

(** The characters [String.prototype.trim] strips, among the code units
    below 256: TAB, LF, VT, FF, CR, SPACE and NO-BREAK SPACE. *)
Definition isWhiteSpace (c : ascii) : bool :=
  match N_of_ascii c with
  | 9 | 10 | 11 | 12 | 13 | 32 | 160 => true
  | _ => false
  end%N.

Fixpoint trimStart (s : string) : string :=
  match s with
  | EmptyString => EmptyString
  | String c rest => if isWhiteSpace c then trimStart rest else s
  end.

Definition trimEnd (s : string) : string :=
  String.rev (trimStart (String.rev s)).

Definition trim (s : string) : string := trimEnd (trimStart s).

(** [Buffer.prototype.toString("base64")] *)
Definition base64Alphabet : string :=
  "ABCDEFGHIJKLMNOPQRSTUVWXYZabcdefghijklmnopqrstuvwxyz0123456789+/".

Definition base64Digit (n : N) : ascii :=
  match String.get (N.to_nat n) base64Alphabet with
  | Some c => c
  | None => "="%char
  end.

Fixpoint base64 (bs : list byte) : string :=
  match bs with
  | [] => ""
  | [a] =>
      let x := Byte.to_N a in
      String (base64Digit (x / 4))
        (String (base64Digit ((x mod 4) * 16)) "==")
  | [a; b] =>
      let x := Byte.to_N a in
      let y := Byte.to_N b in
      String (base64Digit (x / 4))
        (String (base64Digit ((x mod 4) * 16 + y / 16))
           (String (base64Digit ((y mod 16) * 4)) "="))
  | a :: b :: c :: rest =>
      let x := Byte.to_N a in
      let y := Byte.to_N b in
      let z := Byte.to_N c in
      String (base64Digit (x / 4))
        (String (base64Digit ((x mod 4) * 16 + y / 16))
           (String (base64Digit ((y mod 16) * 4 + z / 64))
              (String (base64Digit (z mod 64)) (base64 rest))))
  end%N.

End Js.

(* ===================================================================== *)
(** ** The transcription gateway: [src/index.tsx] *)
(* ===================================================================== *)

Module Gateway.
Import Js.

(** *** The SDK objects the server builds *)

(** [new GoogleGenerativeAI(apiKey)] keeps the key it was given. *)
Record GoogleGenerativeAI : Type := { apiKey : string }.

(** [genAI.getGenerativeModel({ model })] *)
Record GenerativeModel : Type :=
  { client : GoogleGenerativeAI; modelName : string }.

Record GenerationConfig : Type :=
  { temperature : Q; topK : Z; topP : Z; maxOutputTokens : Z }.

Inductive HarmCategory : Type :=
| HARM_CATEGORY_HARASSMENT
| HARM_CATEGORY_HATE_SPEECH
| HARM_CATEGORY_SEXUALLY_EXPLICIT
| HARM_CATEGORY_DANGEROUS_CONTENT.

Inductive HarmBlockThreshold : Type :=
| BLOCK_LOW_AND_ABOVE
| BLOCK_MEDIUM_AND_ABOVE
| BLOCK_ONLY_HIGH
| BLOCK_NONE.

Record SafetySetting : Type :=
  { category : HarmCategory; threshold : HarmBlockThreshold }.

Inductive Part : Type :=
| TextPart (text : string)
| InlineData (data : string) (mimeType : string).

Record Content : Type := { role : string; parts : list Part }.

Record GenerateContentRequest : Type :=
  { contents : list Content;
    req_generationConfig : GenerationConfig;
    req_safetySettings : list SafetySetting }.

(** [result.response.text()] returns the text or throws. *)
Record GenerateContentResult : Type := { response_text : Thrown + string }.

(** The behaviour of the external SDK, which the server does not
    implement: which constructions throw, and what the remote service
    answers to a request. *)
Record Sdk : Type :=
  { sdk_new : string → option Thrown;
    sdk_getGenerativeModel : GoogleGenerativeAI → string → option Thrown;
    sdk_generateContent :
      GenerativeModel → GenerateContentRequest → Thrown + GenerateContentResult }.

(** *** Effects: calls that leave the process, and thrown values *)

Inductive Effect : Type :=
| GenerateContent (m : GenerativeModel) (request : GenerateContentRequest).

(** A computation performs external calls, then returns or throws. *)
Definition M (A : Type) : Type := list Effect * (Thrown + A).

Definition ret {A} (a : A) : M A := ([], inr a).
Definition throw {A} (t : Thrown) : M A := ([], inl t).
Definition lift {A} (r : Thrown + A) : M A := ([], r).
Definition perform (e : Effect) : M unit := ([e], inr ()).

Definition bind {A B} (m : M A) (k : A → M B) : M B :=
  match m with
  | (tr, inl t) => (tr, inl t)
  | (tr, inr a) => let '(tr', r) := k a in (tr ++ tr', r)
  end.

(** [try { m } catch (e) { h e }] *)
Definition tryCatch {A} (m : M A) (h : Thrown → M A) : M A :=
  match m with
  | (tr, inl t) => let '(tr', r) := h t in (tr ++ tr', r)
  | (tr, inr a) => (tr, inr a)
  end.

#[global] Instance M_ret : MRet M := @ret.
#[global] Instance M_bind : MBind M := λ A B k m, bind m k.

Definition effects {A} (m : M A) : list Effect := fst m.
Definition outcome {A} (m : M A) : Thrown + A := snd m.

Definition newGoogleGenerativeAI (sdk : Sdk) (key : string) : M GoogleGenerativeAI :=
  match sdk_new sdk key with
  | Some t => throw t
  | None => ret {| apiKey := key |}
  end.

Definition getGenerativeModel (sdk : Sdk) (g : GoogleGenerativeAI) (name : string)
  : M GenerativeModel :=
  match sdk_getGenerativeModel sdk g name with
  | Some t => throw t
  | None => ret {| client := g; modelName := name |}
  end.

Definition generateContent (sdk : Sdk) (m : GenerativeModel)
    (request : GenerateContentRequest) : M GenerateContentResult :=
  perform (GenerateContent m request);;
  lift (sdk_generateContent sdk m request).

(** *** Module-level state *)

(** [genAI] and [model], set once when the module is loaded. *)
Record Server : Type :=
  { genAI : option GoogleGenerativeAI; model : option GenerativeModel }.

(** Lines 5-16.  [GEMINI_API_KEY] is [process.env.GEMINI_API_KEY]; an
    unset or empty variable is falsy. *)
Definition startServer (sdk : Sdk) (GEMINI_API_KEY : option string) : M Server :=
  g ← match GEMINI_API_KEY with
      | Some key =>
          if bool_decide (key ≠ "")
          then c ← newGoogleGenerativeAI sdk key; mret (Some c)
          else ret None
      | None => ret None
      end;
  m ← match g with
      | Some c => m ← getGenerativeModel sdk c "gemini-2.0-flash-001"; mret (Some m)
      | None => ret None
      end;
  ret {| genAI := g; model := m |}.

Definition generationConfig : GenerationConfig :=
  {| temperature := 7 # 10; topK := 1; topP := 1; maxOutputTokens := 2048 |}.

Definition safetySettings : list SafetySetting :=
  [ {| category := HARM_CATEGORY_HARASSMENT; threshold := BLOCK_MEDIUM_AND_ABOVE |};
    {| category := HARM_CATEGORY_HATE_SPEECH; threshold := BLOCK_MEDIUM_AND_ABOVE |};
    {| category := HARM_CATEGORY_SEXUALLY_EXPLICIT; threshold := BLOCK_MEDIUM_AND_ABOVE |};
    {| category := HARM_CATEGORY_DANGEROUS_CONTENT; threshold := BLOCK_MEDIUM_AND_ABOVE |} ].

(** *** Requests and responses *)

(** An uploaded file; [arrayBuffer] is what [await file.arrayBuffer()]
    yields. *)
Record File : Type :=
  { file_name : string; file_type : string; arrayBuffer : Thrown + list byte }.

(** What [formData.get] returns for a field that is present: a string or
    a file. *)
Inductive FormDataEntryValue : Type :=
| FormString (s : string)
| FormFile (f : File).

(** The two fields the handler reads.  Lines 44-45 cast them to
    [File | null] and to [string | null] without a check, so either may
    hold a string or a file. *)
Record FormData : Type :=
  { audio_file : option FormDataEntryValue;
    gemini_api_token : option FormDataEntryValue }.

(** The messages of the [TypeError]s raised by calling a method the value
    does not have: [trim] on a file, [arrayBuffer] on a string (the
    wording is the engine's; JavaScriptCore's, on which Bun runs). *)
Definition trimMissingMessage : string :=
  "clientToken.trim is not a function. (In 'clientToken.trim()', 'clientToken.trim' is undefined)".

Definition arrayBufferMissingMessage : string :=
  "audioFile.arrayBuffer is not a function. (In 'audioFile.arrayBuffer()', 'audioFile.arrayBuffer' is undefined)".

(** [await req.formData()] rejects when the body is not form data. *)
Record Request : Type := { formData : Thrown + FormData }.

(** [Response.json(data, { status })]; the status defaults to 200. *)
Record Response : Type := { status : nat; body : Json }.

Definition Response_json (data : Json) (st : option nat) : Response :=
  {| status := default 200 st; body := data |}.

(** *** [POST /api/transcribe] *)

(** Lines 50-52 when nothing throws: the client and model built for one
    request from the caller's token. *)
Definition freshModel (token : string) : GenerativeModel :=
  {| client := {| apiKey := token |}; modelName := "gemini-2.0-flash-001" |}.

(** What lines 47-65 leave behind: the model to call, or the response
    already returned. *)
Inductive Resolved : Type :=
| Use (currentModel : GenerativeModel)
| Reply (r : Response).

(** Lines 47-65: which client serves this request.  A file in the token
    field is truthy and has no [trim]: the call of line 47 throws, before
    the [try] of line 49. *)
Definition resolveCredential (sdk : Sdk) (srv : Server)
    (clientToken : option FormDataEntryValue) : M Resolved :=
  match clientToken with
  | Some (FormFile _) => throw (ErrorObj trimMissingMessage)
  | Some (FormString token) =>
      if bool_decide (token ≠ "") && bool_decide (trim token ≠ "") then
        tryCatch
          (currentGenAI ← newGoogleGenerativeAI sdk token;
           currentModel ← getGenerativeModel sdk currentGenAI "gemini-2.0-flash-001";
           ret (Use currentModel))
          (λ e, ret (Reply (Response_json
               (objectLiteral
                  [("error", Some (JString "Invalid client-provided API token."));
                   ("details", JString <$> message_of e)])
               (Some 400))))
      else
        match genAI srv, model srv with
        | Some _, Some m => ret (Use m)
        | _, _ =>
            ret (Reply (Response_json
              (objectLiteral
                 [("error", Some (JString
                     "API token is required. Configure it on the server or provide it in the request."))])
              (Some 500)))
        end
  | None =>
      match genAI srv, model srv with
      | Some _, Some m => ret (Use m)
      | _, _ =>
          ret (Reply (Response_json
            (objectLiteral
               [("error", Some (JString
                   "API token is required. Configure it on the server or provide it in the request."))])
            (Some 500)))
      end
  end.

(** Lines 68-106: the guarded transcription.  A string in the audio
    field is falsy when empty; otherwise it has no [arrayBuffer] and the
    call of line 75 throws, inside the [try]. *)
Definition transcribe (sdk : Sdk) (currentModel : GenerativeModel)
    (audioFile : option FormDataEntryValue) : M Response :=
  tryCatch
    (match audioFile with
     | None =>
         ret (Response_json
                (objectLiteral [("error", Some (JString "No audio file provided."))])
                (Some 400))
     | Some (FormString s) =>
         if bool_decide (s ≠ "")
         then throw (ErrorObj arrayBufferMissingMessage)
         else
           ret (Response_json
                  (objectLiteral [("error", Some (JString "No audio file provided."))])
                  (Some 400))
     | Some (FormFile file) =>
         audioBytes ← lift (arrayBuffer file);
         let audioPart := InlineData (base64 audioBytes) "audio/webm" in
         let parts :=
           [TextPart "Please transcribe the following audio:"; audioPart] in
         result ← generateContent sdk currentModel
           {| contents := [ {| role := "user"; parts := parts |} ];
              req_generationConfig := generationConfig;
              req_safetySettings := safetySettings |};
         transcribedText ← lift (response_text result);
         ret (Response_json
                (objectLiteral [("transcription", Some (JString transcribedText))])
                None)
     end)
    (λ error,
       let errorMessage := messageOr "An unknown error occurred" error in
       ret (Response_json
              (objectLiteral
                 [("error", Some (JString "Failed to transcribe audio."));
                  ("details", Some (JString errorMessage))])
              (Some 500))).

(** The handler.  An [inl] outcome is a rejection of the handler's
    promise: a fault that left the handler without a response. *)
Definition POST (sdk : Sdk) (srv : Server) (req : Request) : M Response :=
  formData ← lift (formData req);
  let audioFile := audio_file formData in
  let clientToken := gemini_api_token formData in
  resolved ← resolveCredential sdk srv clientToken;
  match resolved with
  | Reply r => ret r
  | Use currentModel => transcribe sdk currentModel audioFile
  end.

End Gateway.

(* ===================================================================== *)
(** ** The recording client: [src/App.tsx] *)
(* ===================================================================== *)

Module App.
Import Js.

(** *** Binary data and the request the client sends *)

Record Blob : Type := { blob_bytes : list byte; blob_type : string }.

(** [blob.size] *)
Definition size (b : Blob) : nat := length (blob_bytes b).

(** [new Blob(parts, { type })] concatenates its parts. *)
Definition newBlob (blobParts : list Blob) (type : string) : Blob :=
  {| blob_bytes := mjoin (blob_bytes <$> blobParts); blob_type := type |}.

Record File : Type :=
  { file_name : string; file_type : string; file_bytes : list byte }.

(** [new File(parts, name, { type })] *)
Definition newFile (fileBits : list Blob) (name type : string) : File :=
  {| file_name := name;
     file_type := type;
     file_bytes := mjoin (blob_bytes <$> fileBits) |}.

Inductive FormDataEntryValue : Type :=
| FormString (s : string)
| FormFile (f : File).

(** [FormData], in [append] order. *)
Definition FormData : Type := list (string * FormDataEntryValue).

Record FetchRequest : Type :=
  { url : string; method : string; request_body : FormData }.

(** *** Browser objects *)

(** A microphone track; [stopCalls] counts the calls of [track.stop()]. *)
Record MediaStreamTrack : Type := { stopCalls : nat }.

Record MediaStream : Type := { tracks : list MediaStreamTrack }.

Inductive RecordingState : Type := inactive | recording | paused.

#[global] Instance RecordingState_eq_dec : EqDecision RecordingState.
Proof. solve_decision. Defined.

(** A [MediaRecorder] with the two handlers of lines 81-95 installed.
    The handlers are closures: [onstop] holds the [stream] the recorder
    was built on and, through [sendAudioForTranscription], the
    [geminiApiToken] of the render in which the user pressed the button.
    [stopQueued] is the task that [stop()] (or the end of the capture)
    queues and that fires the [stop] event. *)
Record MediaRecorder : Type :=
  { rec_state : RecordingState;
    rec_stream : nat;
    rec_token : string;
    stopQueued : bool }.

(** A call of [getUserMedia] and whether its promise has settled; the
    suspended [handleToggleListen] holds the token of its render. *)
Record Acquisition : Type := { acq_token : string; acq_settled : bool }.

(** A call of [fetch] and whether it has settled. *)
Record FetchCall : Type := { fetch_request : FetchRequest; fetch_settled : bool }.

(** *** The component's state and the objects it reaches *)

Record State : Type :=
  { (* useState *)
    isListening : bool;
    geminiApiToken : string;
    transcribedText : string;
    statusText : string;
    errorText : string;
    (* useRef *)
    mediaRecorderRef : option nat;
    audioChunksRef : list Blob;
    (* the browser: objects are named by their index of creation *)
    acquisitions : list Acquisition;
    streams : list MediaStream;
    recorders : list MediaRecorder;
    fetches : list FetchCall }.

Definition initial : State :=
  {| isListening := false;
     geminiApiToken := "";
     transcribedText := "";
     statusText := "Click the button to start voice input.";
     errorText := "";
     mediaRecorderRef := None;
     audioChunksRef := [];
     acquisitions := [];
     streams := [];
     recorders := [];
     fetches := [] |}.

Definition setIsListening (b : bool) (st : State) : State :=
  {| isListening := b;
     geminiApiToken := geminiApiToken st; transcribedText := transcribedText st;
     statusText := statusText st; errorText := errorText st;
     mediaRecorderRef := mediaRecorderRef st; audioChunksRef := audioChunksRef st;
     acquisitions := acquisitions st; streams := streams st;
     recorders := recorders st; fetches := fetches st |}.

Definition setGeminiApiToken (s : string) (st : State) : State :=
  {| isListening := isListening st;
     geminiApiToken := s; transcribedText := transcribedText st;
     statusText := statusText st; errorText := errorText st;
     mediaRecorderRef := mediaRecorderRef st; audioChunksRef := audioChunksRef st;
     acquisitions := acquisitions st; streams := streams st;
     recorders := recorders st; fetches := fetches st |}.

(** [setTranscribedText(prevText => f prevText)] *)
Definition setTranscribedText (f : string → string) (st : State) : State :=
  {| isListening := isListening st;
     geminiApiToken := geminiApiToken st; transcribedText := f (transcribedText st);
     statusText := statusText st; errorText := errorText st;
     mediaRecorderRef := mediaRecorderRef st; audioChunksRef := audioChunksRef st;
     acquisitions := acquisitions st; streams := streams st;
     recorders := recorders st; fetches := fetches st |}.

Definition setStatusText (s : string) (st : State) : State :=
  {| isListening := isListening st;
     geminiApiToken := geminiApiToken st; transcribedText := transcribedText st;
     statusText := s; errorText := errorText st;
     mediaRecorderRef := mediaRecorderRef st; audioChunksRef := audioChunksRef st;
     acquisitions := acquisitions st; streams := streams st;
     recorders := recorders st; fetches := fetches st |}.

Definition setErrorText (s : string) (st : State) : State :=
  {| isListening := isListening st;
     geminiApiToken := geminiApiToken st; transcribedText := transcribedText st;
     statusText := statusText st; errorText := s;
     mediaRecorderRef := mediaRecorderRef st; audioChunksRef := audioChunksRef st;
     acquisitions := acquisitions st; streams := streams st;
     recorders := recorders st; fetches := fetches st |}.

Definition setMediaRecorderRef (r : option nat) (st : State) : State :=
  {| isListening := isListening st;
     geminiApiToken := geminiApiToken st; transcribedText := transcribedText st;
     statusText := statusText st; errorText := errorText st;
     mediaRecorderRef := r; audioChunksRef := audioChunksRef st;
     acquisitions := acquisitions st; streams := streams st;
     recorders := recorders st; fetches := fetches st |}.

Definition setAudioChunksRef (chunks : list Blob) (st : State) : State :=
  {| isListening := isListening st;
     geminiApiToken := geminiApiToken st; transcribedText := transcribedText st;
     statusText := statusText st; errorText := errorText st;
     mediaRecorderRef := mediaRecorderRef st; audioChunksRef := chunks;
     acquisitions := acquisitions st; streams := streams st;
     recorders := recorders st; fetches := fetches st |}.

Definition withAcquisitions (f : list Acquisition → list Acquisition) (st : State) : State :=
  {| isListening := isListening st;
     geminiApiToken := geminiApiToken st; transcribedText := transcribedText st;
     statusText := statusText st; errorText := errorText st;
     mediaRecorderRef := mediaRecorderRef st; audioChunksRef := audioChunksRef st;
     acquisitions := f (acquisitions st); streams := streams st;
     recorders := recorders st; fetches := fetches st |}.

Definition withStreams (f : list MediaStream → list MediaStream) (st : State) : State :=
  {| isListening := isListening st;
     geminiApiToken := geminiApiToken st; transcribedText := transcribedText st;
     statusText := statusText st; errorText := errorText st;
     mediaRecorderRef := mediaRecorderRef st; audioChunksRef := audioChunksRef st;
     acquisitions := acquisitions st; streams := f (streams st);
     recorders := recorders st; fetches := fetches st |}.

Definition withRecorders (f : list MediaRecorder → list MediaRecorder) (st : State) : State :=
  {| isListening := isListening st;
     geminiApiToken := geminiApiToken st; transcribedText := transcribedText st;
     statusText := statusText st; errorText := errorText st;
     mediaRecorderRef := mediaRecorderRef st; audioChunksRef := audioChunksRef st;
     acquisitions := acquisitions st; streams := streams st;
     recorders := f (recorders st); fetches := fetches st |}.

Definition withFetches (f : list FetchCall → list FetchCall) (st : State) : State :=
  {| isListening := isListening st;
     geminiApiToken := geminiApiToken st; transcribedText := transcribedText st;
     statusText := statusText st; errorText := errorText st;
     mediaRecorderRef := mediaRecorderRef st; audioChunksRef := audioChunksRef st;
     acquisitions := acquisitions st; streams := streams st;
     recorders := recorders st; fetches := f (fetches st) |}.

(** *** What the page shows (lines 176-179) *)

Definition shownStatus (st : State) : option string :=
  if bool_decide (statusText st ≠ "") && bool_decide (errorText st = "")
  then Some (statusText st) else None.

Definition shownError (st : State) : option string :=
  if bool_decide (errorText st ≠ "") then Some (errorText st) else None.

(** *** [sendAudioForTranscription] *)

Definition newline : string := String "010"%char "".

(** Lines 19-34, up to the suspension at [await fetch(...)].  [token] is
    the [geminiApiToken] the closure holds. *)
Definition sendAudioForTranscription (token : string) (audioFile : File)
    (st : State) : State :=
  let st := setStatusText "Transcribing audio..." st in
  let st := setErrorText "" st in
  let formData : FormData :=
    [("audio_file",
      FormFile {| file_name := "recording.webm";
                  file_type := file_type audioFile;
                  file_bytes := file_bytes audioFile |})] in
  let formData :=
    if bool_decide (token ≠ "")
    then formData ++ [("gemini_api_token", FormString token)]
    else formData in
  withFetches
    (λ fs, fs ++ [ {| fetch_request :=
                        {| url := "/api/transcribe";
                           method := "POST";
                           request_body := formData |};
                      fetch_settled := false |} ])
    st.

(** How a [fetch] ends: it rejects, or it answers with a status and a
    body on which [response.json()] resolves or rejects. *)
Inductive FetchOutcome : Type :=
| FetchRejected (err : Thrown)
| Answered (status : nat) (json : Thrown + Json).

(** [response.ok] *)
Definition ok (status : nat) : bool :=
  bool_decide (200 ≤ status ∧ status ≤ 299).

(** Lines 42-55: what a 2xx answer does with [result.transcription]: the
    new state, or the value thrown by the conversion to a string in
    line 45.  [now] is [new Date().toLocaleTimeString()] at that moment. *)
Definition acceptTranscription (transcription : Value) (now : string)
    (st : State) : Thrown + State :=
  let newTranscription := or_else transcription (Some (JString "")) in
  if truthy newTranscription then
    let timestamp := now in
    match valueToString newTranscription with
    | inl err => inl err
    | inr text =>
        let newEntry := "[" +:+ timestamp +:+ "] " +:+ text in
        let st :=
          setTranscribedText
            (λ prevText,
               if bool_decide (prevText ≠ "")
               then prevText +:+ newline +:+ newEntry
               else newEntry)
            st in
        inr (setStatusText "Transcription complete. Click to start again." st)
    end
  else inr (setStatusText "Transcription complete. Click to start again." st).

(** Lines 36-55, the body of the [try] after the [fetch] has settled:
    the new state, or the value thrown.  Nothing is written to the state
    before the last point that can throw. *)
Definition transcriptionAttempt (o : FetchOutcome) (now : string) (st : State)
  : Thrown + State :=
  match o with
  | FetchRejected err => inl err
  | Answered status json =>
      match json with
      | inl err => inl err
      | inr result =>
          if negb (ok status) then
            match getProp result "error" with
            | inl err => inl err
            | inr error =>
                if truthy error
                then inl (newError error)
                else
                  match getProp result "details" with
                  | inl err => inl err
                  | inr details =>
                      inl (newError
                             (or_else details (Some (JString "Transcription failed"))))
                  end
            end
          else
            match getProp result "transcription" with
            | inl err => inl err
            | inr transcription => acceptTranscription transcription now st
            end
      end
  end.

(** Lines 56-61 *)
Definition transcriptionFailed (err : Thrown) (st : State) : State :=
  let message :=
    messageOr "An unknown error occurred during transcription." err in
  let st := setErrorText ("Error: " +:+ message) st in
  setStatusText "Error during transcription. Please try again." st.

(** Lines 36-61: the continuation of [sendAudioForTranscription]. *)
Definition sendAudioForTranscription_settled (o : FetchOutcome) (now : string)
    (st : State) : State :=
  match transcriptionAttempt o now st with
  | inr st' => st'
  | inl err => transcriptionFailed err st
  end.

(** *** The recorder's handlers *)

(** Lines 81-85 *)
Definition ondataavailable (data : Blob) (st : State) : State :=
  if bool_decide (0 < size data)
  then setAudioChunksRef (audioChunksRef st ++ [data]) st
  else st.

(** Line 88 and line 90: the file built from the buffered fragments. *)
Definition recordedFile (chunks : list Blob) : File :=
  let audioBlob := newBlob chunks "audio/webm" in
  newFile [audioBlob] "recording.webm" (blob_type audioBlob).

(** [track.stop()] *)
Definition stopTrack (t : MediaStreamTrack) : MediaStreamTrack :=
  {| stopCalls := S (stopCalls t) |}.

(** [stream.getTracks().forEach(track => track.stop())] *)
Definition stopTracks (stream : nat) (st : State) : State :=
  withStreams (alter (λ s, {| tracks := stopTrack <$> tracks s |}) stream) st.

(** Lines 87-95, for a recorder whose closure holds [stream] and [token]. *)
Definition onstop (stream : nat) (token : string) (st : State) : State :=
  let audioFile := recordedFile (audioChunksRef st) in
  let st := sendAudioForTranscription token audioFile st in
  stopTracks stream st.

(** *** [handleToggleListen] *)

(** [recorder.stop()]: the recorder becomes inactive at once and a task
    is queued that fires [dataavailable] and then [stop]. *)
Definition MediaRecorder_stop (r : MediaRecorder) : MediaRecorder :=
  {| rec_state := inactive; rec_stream := rec_stream r;
     rec_token := rec_token r; stopQueued := true |}.

(** [recorder.start()] *)
Definition MediaRecorder_start (r : MediaRecorder) : MediaRecorder :=
  {| rec_state := recording; rec_stream := rec_stream r;
     rec_token := rec_token r; stopQueued := stopQueued r |}.

(** Lines 65-77: the part that runs when the button is pressed, up to
    the suspension at [await getUserMedia(...)] in the start branch. *)
Definition handleToggleListen (st : State) : State :=
  let st := setErrorText "" st in
  if isListening st then
    let st :=
      match mediaRecorderRef st with
      | Some r =>
          match recorders st !! r with
          | Some rec =>
              if bool_decide (rec_state rec = recording)
              then withRecorders (alter MediaRecorder_stop r) st
              else st
          | None => st
          end
      | None => st
      end in
    setIsListening false st
  else
    withAcquisitions
      (λ l, l ++ [ {| acq_token := geminiApiToken st; acq_settled := false |} ])
      st.

(** Lines 101-107 *)
Definition microphoneFailed (err : Thrown) (st : State) : State :=
  let message := messageOr "An unknown error occurred." err in
  let st :=
    setErrorText
      ("Error accessing microphone: " +:+ message
         +:+ ". Please ensure permission is granted.") st in
  let st :=
    setStatusText "Could not start listening. Check microphone permissions." st in
  setIsListening false st.

(** What the browser does with [new MediaRecorder(stream)] and
    [recorder.start()]: both succeed, or one of them throws. *)
Inductive RecorderStart : Type :=
| Started
| ConstructorThrows (err : Thrown)
| StartThrows (err : Thrown).

(** Lines 78-100 with their [catch]: [handleToggleListen] resumed with the
    [stream] that [getUserMedia] delivered. *)
Definition handleToggleListen_resumed (token : string) (stream : nat)
    (o : RecorderStart) (st : State) : State :=
  match o with
  | ConstructorThrows err => microphoneFailed err st
  | _ =>
      let r := length (recorders st) in
      let st :=
        withRecorders
          (λ l, l ++ [ {| rec_state := inactive; rec_stream := stream;
                          rec_token := token; stopQueued := false |} ])
          st in
      let st := setMediaRecorderRef (Some r) st in
      let st := setAudioChunksRef [] st in
      match o with
      | StartThrows err => microphoneFailed err st
      | _ =>
          let st := withRecorders (alter MediaRecorder_start r) st in
          let st := setIsListening true st in
          setStatusText "Listening... Click to stop." st
      end
  end.

(** *** The event loop *)

(** The tasks that reach the component.  Objects are named by their
    index: [k] is the [k]-th call of [getUserMedia] or of [fetch], [r] the
    [r]-th recorder. *)
Inductive Event : Type :=
| TokenInput (value : string)
| Click
| GetUserMediaResolved (k : nat) (ntracks : nat) (o : RecorderStart)
| GetUserMediaRejected (k : nat) (err : Thrown)
| DataAvailable (r : nat) (data : Blob)
| CaptureEnded (r : nat)
| StopEvent (r : nat)
| FetchSettled (k : nat) (o : FetchOutcome) (now : string).

Definition settleAcquisition (a : Acquisition) : Acquisition :=
  {| acq_token := acq_token a; acq_settled := true |}.

Definition settleFetch (c : FetchCall) : FetchCall :=
  {| fetch_request := fetch_request c; fetch_settled := true |}.

Definition clearStopQueued (r : MediaRecorder) : MediaRecorder :=
  {| rec_state := rec_state r; rec_stream := rec_stream r;
     rec_token := rec_token r; stopQueued := false |}.

(** The [k]-th call of [getUserMedia], when it is still pending. *)
Definition pendingAcquisition (st : State) (k : nat) : option Acquisition :=
  match acquisitions st !! k with
  | Some a => if acq_settled a then None else Some a
  | None => None
  end.

(** The [k]-th call of [fetch], when it is still pending. *)
Definition pendingFetch (st : State) (k : nat) : option FetchCall :=
  match fetches st !! k with
  | Some c => if fetch_settled c then None else Some c
  | None => None
  end.

(** Recorder [r] can fire [dataavailable]: it is recording, or it has
    been stopped and the fragment gathered last is still to come. *)
Definition fires (st : State) (r : nat) : bool :=
  match recorders st !! r with
  | Some rec => bool_decide (rec_state rec = recording) || stopQueued rec
  | None => false
  end.

(** One task.  A task the browser cannot deliver in the state (a promise
    already settled, an event of a recorder that does not fire it) leaves
    the state as it is. *)
Definition step (st : State) (e : Event) : State :=
  match e with
  | TokenInput value => setGeminiApiToken value st
  | Click => handleToggleListen st
  | GetUserMediaResolved k ntracks o =>
      match pendingAcquisition st k with
      | Some a =>
          let st := withAcquisitions (alter settleAcquisition k) st in
          let stream := length (streams st) in
          let st :=
            withStreams
              (λ l, l ++ [ {| tracks := replicate ntracks {| stopCalls := 0 |} |} ])
              st in
          handleToggleListen_resumed (acq_token a) stream o st
      | None => st
      end
  | GetUserMediaRejected k err =>
      match pendingAcquisition st k with
      | Some a =>
          let st := withAcquisitions (alter settleAcquisition k) st in
          microphoneFailed err st
      | None => st
      end
  | DataAvailable r data =>
      if fires st r then ondataavailable data st else st
  | CaptureEnded r =>
      match recorders st !! r with
      | Some rec =>
          if bool_decide (rec_state rec = recording)
          then withRecorders (alter MediaRecorder_stop r) st
          else st
      | None => st
      end
  | StopEvent r =>
      match recorders st !! r with
      | Some rec =>
          if stopQueued rec
          then
            let st := withRecorders (alter clearStopQueued r) st in
            onstop (rec_stream rec) (rec_token rec) st
          else st
      | None => st
      end
  | FetchSettled k o now =>
      match pendingFetch st k with
      | Some _ =>
          let st := withFetches (alter settleFetch k) st in
          sendAudioForTranscription_settled o now st
      | None => st
      end
  end.

(** A run of the event loop. *)
Definition run (st : State) (events : list Event) : State :=
  foldl step st events.

(** The states the component can be in. *)
Definition reachable (st : State) : Prop :=
  ∃ events, st = run initial events.

(** *** Observations on states and runs *)

(** The fragments the recorders deliver while [events] run from [st], in
    their order of arrival. *)
Fixpoint arrivals (st : State) (events : list Event) : list Blob :=
  match events with
  | [] => []
  | e :: rest =>
      match e with
      | DataAvailable r data => if fires st r then [data] else []
      | _ => []
      end ++ arrivals (step st e) rest
  end.

(** A [getUserMedia] promise resolves in this task. *)
Definition resolves (e : Event) : bool :=
  match e with
  | GetUserMediaResolved _ _ _ => true
  | _ => false
  end.

(** The start-action fails in this task: [getUserMedia] rejects
    (permission denied, no device), or the recorder cannot be built or
    started on the stream.  The result names the call and the value
    thrown. *)
Definition startFailure (e : Event) : option (nat * Thrown) :=
  match e with
  | GetUserMediaRejected k err => Some (k, err)
  | GetUserMediaResolved k _ (ConstructorThrows err) => Some (k, err)
  | GetUserMediaResolved k _ (StartThrows err) => Some (k, err)
  | _ => None
  end.

(** The recorders that are capturing. *)
Definition activeRecorders (st : State) : list MediaRecorder :=
  filter (λ r, rec_state r = recording) (recorders st).

(** How often each track of a stream has been stopped. *)
Definition releases (s : MediaStream) : list nat := stopCalls <$> tracks s.

(** The file of the [audio_file] field of a request. *)
Definition uploadedAudio (request : FetchRequest) : option File :=
  match request_body request with
  | ("audio_file", FormFile f) :: _ => Some f
  | _ => None
  end.

End App.

(* ===================================================================== *)
(** ** The specification's vocabulary *)
(* ===================================================================== *)

(** The notions the specification uses and the code does not define, in
    the specification's words; the theorems below compare the code with
    them. *)
Module Spec.

(** A blank credential: nothing but white space (or nothing at all). *)
Definition blank (s : string) : bool :=
  forallb Js.isWhiteSpace (list_ascii_of_string s).

(** Section 3: a TranscriptEntry is a time of receipt and a text; the
    TranscriptLog is the sequence of entries, newest last. *)
Record TranscriptEntry : Type := { timestamp : string; text : string }.

Definition TranscriptLog : Type := list TranscriptEntry.

(** Section 4.2, [appendResult]: an empty text appends nothing, another
    text appends one entry carrying the current time. *)
Definition appendResult (log : TranscriptLog) (text now : string) : TranscriptLog :=
  if decide (text = "") then log
  else log ++ [ {| timestamp := now; text := text |} ].

(** How the client holds the log: one string, an entry per paragraph. *)
Definition renderEntry (e : TranscriptEntry) : string :=
  "[" +:+ timestamp e +:+ "] " +:+ text e.

Fixpoint renderLog (log : TranscriptLog) : string :=
  match log with
  | [] => ""
  | e :: rest =>
      match rest with
      | [] => renderEntry e
      | _ => renderEntry e +:+ App.newline +:+ renderLog rest
      end
  end.

(** Section 7: a transcription call fails on a response that is not 2xx
    and on a fetch or parse error. *)
Definition failed (o : App.FetchOutcome) : bool :=
  match o with
  | App.FetchRejected _ => true
  | App.Answered status (inl _) => true
  | App.Answered status (inr _) => negb (App.ok status)
  end.

(** A body carries a transcription: its [transcription] member is a
    string that is not empty. *)
Definition carriesTranscription (result : Js.Json) : bool :=
  match Js.getProp result "transcription" with
  | inr (Some (Js.JString s)) => bool_decide (s ≠ "")
  | _ => false
  end.

(** A response is a JSON error body: an object with a string under
    [error]. *)
Definition hasError (r : Gateway.Response) : Prop :=
  ∃ members message,
    Gateway.body r = Js.JObject members
    ∧ Js.lookup_member "error" members = Some (Js.JString message).

(** Every external call of a computation goes to the model [used]. *)
Definition callsOnly {A} (m : Gateway.M A) (used : Gateway.GenerativeModel) : Prop :=
  ∀ m' request,
    Gateway.GenerateContent m' request ∈ Gateway.effects m → m' = used.

(** The server default was initialized at process start. *)
Definition hasDefault (srv : Gateway.Server) : bool :=
  match Gateway.genAI srv, Gateway.model srv with
  | Some _, Some _ => true
  | _, _ => false
  end.

(** The caller supplied a credential that is not blank. *)
Definition credentialOffered (token : option string) : bool :=
  match token with
  | Some t => negb (blank t)
  | None => false
  end.

End Spec.

(** Inputs for the examples: an SDK on which nothing throws and the
    service answers [answer], and a server started without
    [GEMINI_API_KEY]. *)
Module Samples.

Definition quietSdk (answer : string) : Gateway.Sdk :=
  {| Gateway.sdk_new := λ _, None;
     Gateway.sdk_getGenerativeModel := λ _ _, None;
     Gateway.sdk_generateContent :=
       λ _ _, inr {| Gateway.response_text := inr answer |} |}.

Definition noDefault : Gateway.Server :=
  {| Gateway.genAI := None; Gateway.model := None |}.

Definition fragment (s : string) : App.Blob :=
  {| App.blob_bytes := String.list_byte_of_string s;
     App.blob_type := "audio/webm" |}.

End Samples.

(* ===================================================================== *)
(** ** The rest of the two files *)
(* ===================================================================== *)

(** What [App] returns (lines 111-198), reduced to the parts that depend
    on the state. *)
Module Page.
Import App.

Inductive ButtonVariant : Type := destructive | default_variant.

Record View : Type :=
  { tokenInput : string;
    buttonLabel : string;
    buttonVariant : ButtonVariant;
    recordingIndicator : bool;
    statusLine : option string;
    errorLine : option string;
    transcriptPane : string }.

(** Lines 125-192 *)
Definition render (st : State) : View :=
  {| tokenInput := geminiApiToken st;
     buttonLabel := if isListening st then "Stop Listening" else "Start Listening";
     buttonVariant := if isListening st then destructive else default_variant;
     recordingIndicator := isListening st;
     statusLine := shownStatus st;
     errorLine := shownError st;
     transcriptPane :=
       if bool_decide (transcribedText st ≠ "")
       then transcribedText st
       else "Your transcribed text will appear here..." |}.

End Page.

(** The other routes of [src/index.tsx] (lines 110-130). *)
Module Hello.
Import Js.

Inductive Method : Type := GET | PUT.

Definition methodName (m : Method) : string :=
  match m with GET => "GET" | PUT => "PUT" end.

(** [/api/hello], lines 110-123 *)
Definition hello (m : Method) : Gateway.Response :=
  Gateway.Response_json
    (objectLiteral [("message", Some (JString "Hello, world!"));
                    ("method", Some (JString (methodName m)))])
    None.

(** [/api/hello/:name], lines 125-130 *)
Definition helloName (name : string) : Gateway.Response :=
  Gateway.Response_json
    (objectLiteral [("message", Some (JString ("Hello, " +:+ name +:+ "!")))])
    None.

End Hello.

(** The request as it travels from the client of [src/App.tsx] to the
    handler of [src/index.tsx], and the answer as it travels back. *)
Module Wire.

(** [formData.get(name)]: the first entry of that name. *)
Fixpoint get (name : string) (entries : App.FormData) : option App.FormDataEntryValue :=
  match entries with
  | [] => None
  | (k, v) :: rest => if decide (k = name) then Some v else get name rest
  end.

(** The file the handler reads for an uploaded file; its bytes are there
    to be read. *)
Definition uploaded (f : App.File) : Gateway.File :=
  {| Gateway.file_name := App.file_name f;
     Gateway.file_type := App.file_type f;
     Gateway.arrayBuffer := inr (App.file_bytes f) |}.

(** A field of the body as the handler's [formData.get] returns it. *)
Definition entry (v : App.FormDataEntryValue) : Gateway.FormDataEntryValue :=
  match v with
  | App.FormString s => Gateway.FormString s
  | App.FormFile f => Gateway.FormFile (uploaded f)
  end.

(** Lines 43-45 on the entries the client sent. *)
Definition received (entries : App.FormData) : Gateway.FormData :=
  {| Gateway.audio_file := entry <$> get "audio_file" entries;
     Gateway.gemini_api_token := entry <$> get "gemini_api_token" entries |}.

(** The handler's response as [fetch] and [response.json()] deliver it. *)
Definition delivered (r : Gateway.Response) : App.FetchOutcome :=
  App.Answered (Gateway.status r) (inr (Gateway.body r)).

(** The request of one recording served by the handler: the outcome of
    the client's [fetch], when the handler answers. *)
Definition served (sdk : Gateway.Sdk) (srv : Gateway.Server)
    (request : App.FetchRequest) : option App.FetchOutcome :=
  let fd := received (App.request_body request) in
  match Gateway.outcome (Gateway.POST sdk srv {| Gateway.formData := inr fd |}) with
  | inr r => Some (delivered r)
  | inl _ => None
  end.

End Wire.

(** Observations used by the properties of the whole files. *)
Module Observe.
Import Js App.

(** The request the guarded transcription sends for the bytes of an
    upload (lines 78-95). *)
Definition transcriptionRequest (audioBytes : list byte) : Gateway.GenerateContentRequest :=
  {| Gateway.contents :=
       [ {| Gateway.role := "user";
            Gateway.parts :=
              [Gateway.TextPart "Please transcribe the following audio:";
               Gateway.InlineData (base64 audioBytes) "audio/webm"] |} ];
     Gateway.req_generationConfig := Gateway.generationConfig;
     Gateway.req_safetySettings := Gateway.safetySettings |}.

(** The calls of [getUserMedia] that have not settled yet. *)
Definition pendingCalls (st : State) : nat :=
  length (filter (λ a, acq_settled a = false) (acquisitions st)).

(** A run in which the button is never pressed while a call of
    [getUserMedia] is pending. *)
Fixpoint orderly (st : State) (events : list Event) : bool :=
  match events with
  | [] => true
  | e :: rest =>
      match e with
      | Click => bool_decide (pendingCalls st = 0)
      | _ => true
      end && orderly (step st e) rest
  end.

(** The stream [getUserMedia] delivers, with [ntracks] live tracks. *)
Definition newStream (ntracks : nat) : MediaStream :=
  {| tracks := replicate ntracks {| stopCalls := 0 |} |}.

(** What one task can do to the recorders and the streams: nothing; stop
    a recorder that captures; fire the [stop] event of a recorder, which
    stops the tracks of its stream; add a stream; add a stream and a
    recorder on it. *)
Inductive Change (rs : list MediaRecorder) (ss : list MediaStream)
  : list MediaRecorder → list MediaStream → Prop :=
| Unchanged : Change rs ss rs ss
| Stopped r rec :
    rs !! r = Some rec →
    rec_state rec = recording →
    Change rs ss (alter MediaRecorder_stop r rs) ss
| Fired r rec :
    rs !! r = Some rec →
    stopQueued rec = true →
    Change rs ss (alter clearStopQueued r rs)
      (alter (λ s, {| tracks := stopTrack <$> tracks s |}) (rec_stream rec) ss)
| Acquired n : Change rs ss rs (ss ++ [newStream n])
| Built n token (started : bool) :
    Change rs ss
      (rs ++ [ {| rec_state := if started then recording else inactive;
                  rec_stream := length ss;
                  rec_token := token;
                  stopQueued := false |} ])
      (ss ++ [newStream n]).

(** The recorders and the streams fit together: every recorder is built
    on a stream of its own; a recorder with a [stop] event to fire is
    inactive; no track was stopped twice; the tracks of a recorder that
    captures, or that has its [stop] event to fire, are live. *)
Definition consistent (rs : list MediaRecorder) (ss : list MediaStream) : Prop :=
  (∀ r rec, rs !! r = Some rec → rec_stream rec < length ss)
  ∧ (∀ r r' rec rec',
       rs !! r = Some rec → rs !! r' = Some rec' →
       rec_stream rec = rec_stream rec' → r = r')
  ∧ (∀ r rec, rs !! r = Some rec → stopQueued rec = true → rec_state rec = inactive)
  ∧ (∀ s stream, ss !! s = Some stream → Forall (λ n, n ≤ 1) (releases stream))
  ∧ (∀ r rec stream,
       rs !! r = Some rec →
       rec_state rec = recording ∨ stopQueued rec = true →
       ss !! rec_stream rec = Some stream →
       Forall (λ n, n = 0) (releases stream)).

(** One session at a time: at most one call of [getUserMedia] is pending,
    and then the component is not listening; a recorder that captures is
    the one [mediaRecorderRef] holds, and the component is listening. *)
Definition oneSession (st : State) : Prop :=
  pendingCalls st ≤ 1
  ∧ (pendingCalls st = 1 → isListening st = false)
  ∧ (∀ r rec,
       recorders st !! r = Some rec →
       rec_state rec = recording →
       isListening st = true ∧ mediaRecorderRef st = Some r).

(** The [gemini_api_token] field of a request. *)
Definition tokenField (request : FetchRequest) : option string :=
  match Wire.get "gemini_api_token" (request_body request) with
  | Some (FormString t) => Some t
  | _ => None
  end.

(** A request as [sendAudioForTranscription] builds it: a POST to
    [/api/transcribe] whose first field is the recording. *)
Definition recordingRequest (request : FetchRequest) : Prop :=
  url request = "/api/transcribe"
  ∧ method request = "POST"
  ∧ ∃ f, uploadedAudio request = Some f
       ∧ file_name f = "recording.webm"
       ∧ file_type f = "audio/webm".

(** The number of [stop] events that fire in a run. *)
Fixpoint stopsFired (st : State) (events : list Event) : nat :=
  match events with
  | [] => 0
  | e :: rest =>
      match e with
      | StopEvent r =>
          match recorders st !! r with
          | Some rec => if stopQueued rec then 1 else 0
          | None => 0
          end
      | _ => 0
      end + stopsFired (step st e) rest
  end.

(** The recordings posted so far, each as the text of its bytes. *)
Definition posted (st : State) : list string :=
  omap (λ call,
          (λ f, String.string_of_list_byte (file_bytes f))
            <$> uploadedAudio (fetch_request call))
       (fetches st).

(** The texts the handler puts under [error] (lines 55, 64, 71, 105). *)
Definition errorTexts : list string :=
  ["Invalid client-provided API token.";
   "API token is required. Configure it on the server or provide it in the request.";
   "No audio file provided.";
   "Failed to transcribe audio."].

(** The digit a base64 character stands for. *)
Fixpoint indexIn (c : ascii) (alphabet : string) : option N :=
  match alphabet with
  | EmptyString => None
  | String a rest =>
      if decide (a = c) then Some 0%N else N.succ <$> indexIn c rest
  end.

Definition base64Value (c : ascii) : option N := indexIn c base64Alphabet.

(** The bytes a base64 text stands for, four characters at a time. *)
Fixpoint unbase64 (s : string) : option (list byte) :=
  match s with
  | EmptyString => Some []
  | String c1 (String c2 (String c3 (String c4 rest))) =>
      match base64Value c1, base64Value c2 with
      | Some a, Some b =>
          let x := (a * 4 + b / 16)%N in
          if decide (c3 = "="%char) then
            if decide (c4 = "="%char) then
              match rest with
              | EmptyString => (λ x, [x]) <$> Byte.of_N x
              | _ => None
              end
            else None
          else
            match base64Value c3 with
            | Some c =>
                let y := ((b mod 16) * 16 + c / 4)%N in
                if decide (c4 = "="%char) then
                  match rest with
                  | EmptyString =>
                      x' ← Byte.of_N x; y' ← Byte.of_N y; Some [x'; y']
                  | _ => None
                  end
                else
                  match base64Value c4 with
                  | Some d =>
                      let z := ((c mod 4) * 64 + d)%N in
                      x' ← Byte.of_N x; y' ← Byte.of_N y; z' ← Byte.of_N z;
                      tail ← unbase64 rest;
                      Some (x' :: y' :: z' :: tail)
                  | None => None
                  end
            | None => None
            end
      | _, _ => None
      end
  | _ => None
  end.

End Observe.

(* ===================================================================== *)
(** ** Properties of the gateway *)
(* ===================================================================== *)

Section Trim.
Import Js.

Lemma rev_app_empty a b : String.rev_app a b = "" → a = "" ∧ b = "".
Proof.
  revert b. induction a as [|c a IH]; intros b H; simpl in H; [done|].
  apply IH in H as [_ H]. discriminate H.
Qed.

Lemma blank_rev_app a b :
  Spec.blank (String.rev_app a b) = Spec.blank a && Spec.blank b.
Proof.
  revert b. induction a as [|c a IH]; intros b; simpl; [done|].
  rewrite IH. unfold Spec.blank. simpl.
  destruct (isWhiteSpace c); simpl; [done|]. by rewrite andb_false_r.
Qed.

Lemma trimStart_empty s : trimStart s = "" ↔ Spec.blank s = true.
Proof.
  unfold Spec.blank. induction s as [|c s IH]; simpl; [done|].
  destruct (isWhiteSpace c); simpl; [done|]. split; discriminate.
Qed.

Lemma blank_trimStart s : Spec.blank (trimStart s) = Spec.blank s.
Proof.
  unfold Spec.blank. induction s as [|c s IH]; simpl; [done|].
  destruct (isWhiteSpace c) eqn:E; simpl; [done|]. by rewrite E.
Qed.

(** [trim] leaves nothing exactly of a blank string. *)
Lemma trim_empty s : trim s = "" ↔ Spec.blank s = true.
Proof.
  unfold trim, trimEnd, String.rev. split.
  - intros H. apply rev_app_empty in H as [H _].
    apply trimStart_empty in H. rewrite blank_rev_app, blank_trimStart in H.
    by apply andb_true_iff in H as [H _].
  - intros H. apply trimStart_empty in H. by rewrite H.
Qed.

(** The guard of line 47, [clientToken && clientToken.trim() !== ""],
    holds exactly for a credential that is not blank. *)
Lemma token_guard token :
  bool_decide (token ≠ "") && bool_decide (trim token ≠ "")
  = negb (Spec.blank token).
Proof.
  destruct (Spec.blank token) eqn:B; simpl.
  - apply trim_empty in B.
    rewrite (bool_decide_eq_false_2 (trim token ≠ "")); [|naive_solver].
    by rewrite andb_false_r.
  - assert (trim token ≠ "") as Ht.
    { intros E. apply trim_empty in E. congruence. }
    assert (token ≠ "") as Hn by (intros ->; by apply Ht).
    by rewrite !bool_decide_eq_true_2.
Qed.
End Trim.

Section GatewayFacts.
Import Js Gateway.
Variable sdk : Sdk.
Variable srv : Server.

(** The guarded transcription calls no model but the one it is given. *)
Lemma transcribe_callsOnly m audio : Spec.callsOnly (transcribe sdk m audio) m.
Proof.
  intros m' rq. unfold transcribe, effects.
  destruct audio as [[s|file]|]; simpl; [|..|by intros ?%elem_of_nil].
  { case_bool_decide; simpl; by intros ?%elem_of_nil. }
  destruct (arrayBuffer file) as [t|bytes]; simpl; [by intros ?%elem_of_nil|].
  match goal with |- context [sdk_generateContent sdk m ?q] =>
    destruct (sdk_generateContent sdk m q) as [t|res] end; simpl.
  - intros H. apply list_elem_of_singleton in H. by inversion H.
  - destruct (response_text res); simpl; intros H;
      apply list_elem_of_singleton in H; by inversion H.
Qed.

Lemma resolve_unoffered token :
  Spec.credentialOffered token = false →
  resolveCredential sdk srv (FormString <$> token) =
    match genAI srv, model srv with
    | Some _, Some m => ret (Use m)
    | _, _ =>
        ret (Reply {| status := 500;
                      body := JObject [("error", JString
     "API token is required. Configure it on the server or provide it in the request.")] |})
    end.
Proof.
  intros H. unfold resolveCredential. destruct token as [t|]; [|done]. simpl.
  rewrite token_guard. simpl in H. by rewrite H.
Qed.

Lemma resolve_offered t :
  Spec.blank t = false →
  resolveCredential sdk srv (Some (FormString t)) =
    match sdk_new sdk t with
    | Some e =>
        ret (Reply {| status := 400;
                      body := objectLiteral
                        [("error", Some (JString "Invalid client-provided API token."));
                         ("details", JString <$> message_of e)] |})
    | None =>
        match sdk_getGenerativeModel sdk {| apiKey := t |} "gemini-2.0-flash-001" with
        | Some e =>
            ret (Reply {| status := 400;
                          body := objectLiteral
                            [("error", Some (JString "Invalid client-provided API token."));
                             ("details", JString <$> message_of e)] |})
        | None => ret (Use (freshModel t))
        end
    end.
Proof.
  intros H. unfold resolveCredential. rewrite token_guard, H. simpl.
  unfold newGoogleGenerativeAI. destruct (sdk_new sdk t); [done|]. simpl.
  unfold getGenerativeModel.
  by destruct (sdk_getGenerativeModel sdk _ _).
Qed.

Lemma invalid_token_hasError e :
  Spec.hasError
    {| status := 400;
       body := objectLiteral
         [("error", Some (JString "Invalid client-provided API token."));
          ("details", JString <$> message_of e)] |}.
Proof. destruct e; eexists _, _; split; reflexivity. Qed.

(** Once the body is parsed, the handler is credential resolution
    followed by the guarded transcription. *)
Lemma POST_parsed fd :
  POST sdk srv {| formData := inr fd |} =
    match resolveCredential sdk srv (gemini_api_token fd) with
    | (tr, inr (Use m)) =>
        let '(tr', r) := transcribe sdk m (audio_file fd) in (tr ++ tr', r)
    | (tr, inr (Reply r)) => (tr ++ [], inr r)
    | (tr, inl t) => (tr, inl t)
    end.
Proof.
  unfold POST. simpl.
  destruct (resolveCredential sdk srv (gemini_api_token fd)) as [tr [t|[m|r]]]; simpl.
  all: try done.
  all: destruct (transcribe sdk m (audio_file fd)) as [tr' r']; done.
Qed.

(** A file in the token field: line 47 throws before the first [try], and
    the handler's promise rejects without a response and without a call,
    whatever else the request carries and whatever the server holds. *)
Lemma file_token_unanswered audio f :
  POST sdk srv
    {| formData := inr {| audio_file := audio; gemini_api_token := Some (FormFile f) |} |}
  = ([], inl (ErrorObj trimMissingMessage)).
Proof. reflexivity. Qed.

(** What does hold of C1.  For a request whose body parses and whose
    token field is missing or a string, the client that serves it is
    chosen in the stated order.  A credential that is present and not
    blank: a client is built from it for this request, and the request is
    the guarded transcription on the model of that client, whatever the
    server holds; when the construction throws, the answer is a 400 error
    and nothing is called.  Otherwise, when the server's default client
    and model exist, the request is the guarded transcription on the
    default model.  Otherwise the answer is a 500 error and nothing is
    called.  In each case every external call goes to the chosen model. *)
Lemma credential_resolution_order audio token :
  let run := POST sdk srv
    {| formData := inr {| audio_file := audio;
                          gemini_api_token := FormString <$> token |} |} in
  let fromServer :=
    match genAI srv, model srv with
    | Some _, Some m =>
        run = transcribe sdk m audio ∧ Spec.callsOnly run m
    | _, _ =>
        effects run = []
        ∧ ∃ r, outcome run = inr r ∧ status r = 500 ∧ Spec.hasError r
    end in
  match token with
  | Some token =>
      if Spec.blank token then fromServer
      else
        match sdk_new sdk token,
              sdk_getGenerativeModel sdk {| apiKey := token |} "gemini-2.0-flash-001" with
        | None, None =>
            run = transcribe sdk (freshModel token) audio
            ∧ Spec.callsOnly run (freshModel token)
        | _, _ =>
            effects run = []
            ∧ ∃ r, outcome run = inr r ∧ status r = 400 ∧ Spec.hasError r
        end
  | None => fromServer
  end.
Proof.
  intros run fromServer.
  assert (Spec.credentialOffered token = false → fromServer) as Hsrv.
  { intros H. subst fromServer run. rewrite POST_parsed.
    cbn [gemini_api_token audio_file]. rewrite (resolve_unoffered _ H).
    destruct (genAI srv), (model srv) as [m|]; simpl;
      try (split; [done|]; eexists; split; [done|]; split; [done|];
           eexists _, _; split; reflexivity).
    destruct (transcribe sdk m audio) as [tr r] eqn:E; simpl.
    split; [done|]. rewrite <- E. apply transcribe_callsOnly. }
  destruct token as [token|]; [|by apply Hsrv].
  destruct (Spec.blank token) eqn:B; [apply Hsrv; simpl; by rewrite B|].
  subst run. rewrite POST_parsed. cbn [gemini_api_token audio_file fmap option_fmap option_map].
  rewrite (resolve_offered _ B).
  destruct (sdk_new sdk token) as [e|]; simpl.
  { split; [done|]. eexists; split; [done|]. split; [done|].
    apply invalid_token_hasError. }
  destruct (sdk_getGenerativeModel sdk _ _) as [e|]; simpl.
  { split; [done|]. eexists; split; [done|]. split; [done|].
    apply invalid_token_hasError. }
  destruct (transcribe sdk (freshModel token) audio) as [tr r] eqn:E; simpl.
  split; [done|]. rewrite <- E. apply transcribe_callsOnly.
Qed.

(** C2, as the code has it.  A request whose body parses, holds no
    [audio_file] and whose token field is missing or a string is answered
    with a JSON error body and no external call is made; the status is 400
    when the caller offered a credential or the server has its default,
    and 500 when no credential is available, because the credential is
    resolved first. *)
Theorem missing_audio_rejected token :
  let run := POST sdk srv
    {| formData := inr {| audio_file := None;
                          gemini_api_token := FormString <$> token |} |} in
  effects run = []
  ∧ ∃ r, outcome run = inr r ∧ Spec.hasError r
      ∧ status r =
          if Spec.credentialOffered token || Spec.hasDefault srv then 400 else 500.
Proof.
  intros run. subst run. rewrite POST_parsed. cbn [gemini_api_token audio_file].
  destruct (Spec.credentialOffered token) eqn:C.
  - destruct token as [t|]; [|done]. simpl in C. apply negb_true_iff in C.
    cbn [fmap option_fmap option_map]. rewrite (resolve_offered _ C).
    destruct (sdk_new sdk t) as [e|]; simpl.
    { split; [done|]. eexists. split; [done|].
      split; [apply invalid_token_hasError|done]. }
    destruct (sdk_getGenerativeModel sdk _ _) as [e|]; simpl.
    { split; [done|]. eexists. split; [done|].
      split; [apply invalid_token_hasError|done]. }
    split; [done|]. eexists. split; [done|]. split; [|done].
    eexists _, _. split; reflexivity.
  - rewrite (resolve_unoffered _ C). unfold Spec.hasDefault.
    destruct (genAI srv), (model srv); simpl;
      (split; [done|]; eexists; split; [done|]; split; [|done];
       eexists _, _; split; reflexivity).
Qed.

(** C3, at the failing input.  When [req.formData()] rejects, the
    handler's promise rejects with the same value: no response is built,
    with or without a JSON body. *)
Theorem unparsable_body_unanswered t :
  POST sdk srv {| formData := inl t |} = ([], inl t).
Proof. reflexivity. Qed.

Lemma transcribe_answers m audio :
  ∃ r, outcome (transcribe sdk m audio) = inr r
     ∧ ((status r = 200 ∧ ∃ text, body r = JObject [("transcription", JString text)])
        ∨ ((status r = 400 ∨ status r = 500) ∧ Spec.hasError r)).
Proof.
  unfold transcribe, outcome.
  destruct audio as [[s|file]|]; simpl.
  3:{ eexists. split; [done|]. right. split; [by left|].
      eexists _, _. split; reflexivity. }
  { case_bool_decide; simpl.
    - eexists. split; [done|]. right. split; [by right|].
      eexists _, _. split; reflexivity.
    - eexists. split; [done|]. right. split; [by left|].
      eexists _, _. split; reflexivity. }
  destruct (arrayBuffer file) as [t|bytes]; simpl.
  { eexists. split; [done|]. right. split; [by right|].
    eexists _, _. split; reflexivity. }
  match goal with |- context [sdk_generateContent sdk m ?q] =>
    destruct (sdk_generateContent sdk m q) as [t|res] end; simpl.
  { eexists. split; [done|]. right. split; [by right|].
    eexists _, _. split; reflexivity. }
  destruct (response_text res) as [t|text]; simpl.
  { eexists. split; [done|]. right. split; [by right|].
    eexists _, _. split; reflexivity. }
  eexists. split; [done|]. left. split; [done|]. by eexists.
Qed.

(** What does hold of C3: once the body is parsed and the token field is
    missing or a string, every fault is caught and the handler answers,
    with the transcription under status 200 or with a JSON error body
    under 400 or 500. *)
Lemma parsed_body_answered audio token :
  ∃ r, outcome (POST sdk srv
         {| formData := inr {| audio_file := audio;
                               gemini_api_token := FormString <$> token |} |}) = inr r
     ∧ ((status r = 200 ∧ ∃ text, body r = JObject [("transcription", JString text)])
        ∨ ((status r = 400 ∨ status r = 500) ∧ Spec.hasError r)).
Proof.
  rewrite POST_parsed. cbn [gemini_api_token audio_file].
  destruct (Spec.credentialOffered token) eqn:C.
  - destruct token as [t|]; [|done].
    simpl in C. apply negb_true_iff in C.
    cbn [fmap option_fmap option_map]. rewrite (resolve_offered _ C).
    destruct (sdk_new sdk t) as [e|]; simpl.
    { eexists. split; [done|]. right. split; [by left|].
      apply invalid_token_hasError. }
    destruct (sdk_getGenerativeModel sdk _ _) as [e|]; simpl.
    { eexists. split; [done|]. right. split; [by left|].
      apply invalid_token_hasError. }
    destruct (transcribe_answers (freshModel t) audio) as (r & Hr & H).
    destruct (transcribe sdk (freshModel t) audio) as [tr o].
    simpl in *. eauto.
  - rewrite (resolve_unoffered _ C).
    destruct (genAI srv), (model srv) as [m|]; simpl;
      try (eexists; split; [done|]; right; split; [by right|];
           eexists _, _; split; reflexivity).
    destruct (transcribe_answers m audio) as (r & Hr & H).
    destruct (transcribe sdk m audio) as [tr o]. simpl in *. eauto.
Qed.
End GatewayFacts.

(** C1, at the failing input.  The body parses and its
    [gemini_api_token] part is a file; the server holds its default
    client and the request carries a recording.  Line 47 calls [trim] on
    the file, before the [try] of line 49: the handler's promise rejects
    with the [TypeError].  No client is built from the caller's field, the
    default is not used, no configuration error is answered, and nothing
    is called. *)
Theorem file_token_is_not_resolved :
  let recording :=
    {| Gateway.file_name := "recording.webm"; Gateway.file_type := "audio/webm";
       Gateway.arrayBuffer := inr (String.list_byte_of_string "abc") |} in
  let attachment :=
    {| Gateway.file_name := "token.txt"; Gateway.file_type := "text/plain";
       Gateway.arrayBuffer := inr (String.list_byte_of_string "key") |} in
  let keyed :=
    {| Gateway.genAI := Some {| Gateway.apiKey := "server-key" |};
       Gateway.model := Some (Gateway.freshModel "server-key") |} in
  let request token :=
    {| Gateway.formData :=
         inr {| Gateway.audio_file := Some (Gateway.FormFile recording);
                Gateway.gemini_api_token := token |} |} in
  let run := Gateway.POST (Samples.quietSdk "hi") keyed
               (request (Some (Gateway.FormFile attachment))) in
  let withText := Gateway.POST (Samples.quietSdk "hi") keyed
                    (request (Some (Gateway.FormString "key"))) in
  let without := Gateway.POST (Samples.quietSdk "hi") keyed (request None) in
  Gateway.effects run = []
  ∧ Gateway.outcome run = inl (Js.ErrorObj Gateway.trimMissingMessage)
  ∧ Gateway.effects withText =
      [Gateway.GenerateContent (Gateway.freshModel "key")
         (Observe.transcriptionRequest (String.list_byte_of_string "abc"))]
  ∧ Gateway.effects without =
      [Gateway.GenerateContent (Gateway.freshModel "server-key")
         (Observe.transcriptionRequest (String.list_byte_of_string "abc"))].
Proof. repeat split. Qed.

(** C2, as stated, fails: with no [audio_file], no credential from the
    caller and no server default, the answer is 500, not 400; and with no
    [audio_file] and a file as the token part there is no answer. *)
Lemma missing_audio_without_credential_is_500 :
  let req :=
    {| Gateway.formData :=
         inr {| Gateway.audio_file := None; Gateway.gemini_api_token := None |} |} in
  let run := Gateway.POST (Samples.quietSdk "") Samples.noDefault req in
  let attachment :=
    {| Gateway.file_name := "token.txt"; Gateway.file_type := "text/plain";
       Gateway.arrayBuffer := inr (String.list_byte_of_string "key") |} in
  let faulty := Gateway.POST (Samples.quietSdk "") Samples.noDefault
    {| Gateway.formData :=
         inr {| Gateway.audio_file := None;
                Gateway.gemini_api_token := Some (Gateway.FormFile attachment) |} |} in
  (∃ r, Gateway.outcome run = inr r
      ∧ Gateway.status r = 500
      ∧ Gateway.status r ≠ 400)
  ∧ Gateway.outcome faulty = inl (Js.ErrorObj Gateway.trimMissingMessage).
Proof.
  split; [|reflexivity].
  eexists. split; [reflexivity|]. split; [reflexivity|]. discriminate.
Qed.

(* ===================================================================== *)
(** ** Properties of the client *)
(* ===================================================================== *)

Section Transcript.
Import Js App.

Lemma app_empty a b : a +:+ b = "" → a = "" ∧ b = "".
Proof. destruct a; simpl; [done|discriminate]. Qed.

Lemma renderEntry_nonempty e : Spec.renderEntry e ≠ "".
Proof. unfold Spec.renderEntry. discriminate. Qed.

Lemma renderLog_empty log : Spec.renderLog log = "" ↔ log = [].
Proof.
  split; [|by intros ->].
  destruct log as [|e [|e' rest]]; [done| |]; simpl.
  - intros H. by apply renderEntry_nonempty in H.
  - intros H. apply app_empty in H as [H _]. by apply renderEntry_nonempty in H.
Qed.

Lemma string_app_assoc (a b c : string) : (a +:+ b) +:+ c = a +:+ b +:+ c.
Proof.
  induction a as [|x a IH]; [done|].
  change (String x ((a +:+ b) +:+ c) = String x (a +:+ b +:+ c)). by rewrite IH.
Qed.

(** The stored string grows as line 46-50 grow it. *)
Lemma renderLog_snoc log e :
  Spec.renderLog (log ++ [e]) =
    if bool_decide (Spec.renderLog log ≠ "")
    then Spec.renderLog log +:+ newline +:+ Spec.renderEntry e
    else Spec.renderEntry e.
Proof.
  induction log as [|e0 rest IH]; [done|].
  rewrite bool_decide_eq_true_2; [|by rewrite renderLog_empty].
  destruct rest as [|e1 rest]; [done|].
  change (Spec.renderLog ((e0 :: e1 :: rest) ++ [e]))
    with (Spec.renderEntry e0 +:+ newline +:+ Spec.renderLog ((e1 :: rest) ++ [e])).
  rewrite IH, bool_decide_eq_true_2; [|by rewrite renderLog_empty].
  change (Spec.renderLog (e0 :: e1 :: rest))
    with (Spec.renderEntry e0 +:+ newline +:+ Spec.renderLog (e1 :: rest)).
  by rewrite !string_app_assoc.
Qed.
End Transcript.

Section Settling.
Import Js App.

Lemma step_FetchSettled st k c o now :
  pendingFetch st k = Some c →
  step st (FetchSettled k o now) =
    sendAudioForTranscription_settled o now (withFetches (alter settleFetch k) st).
Proof. intros H. simpl. by rewrite H. Qed.

Lemma attempt_accepts st status result v now :
  ok status = true →
  getProp result "transcription" = inr v →
  transcriptionAttempt (Answered status (inr result)) now st =
    acceptTranscription v now st.
Proof. intros Hok Hv. unfold transcriptionAttempt. by rewrite Hok, Hv. Qed.

(** A falsy [transcription] only sets the status. *)
Lemma acceptTranscription_falsy v now st :
  truthy v = false →
  acceptTranscription v now st =
    inr (setStatusText "Transcription complete. Click to start again." st).
Proof. intros H. unfold acceptTranscription, or_else. by rewrite H. Qed.

(** A string that is not empty is appended as it is. *)
Lemma acceptTranscription_text text now st :
  text ≠ "" →
  acceptTranscription (Some (JString text)) now st =
    inr (setStatusText "Transcription complete. Click to start again."
           (setTranscribedText
              (λ prevText,
                 if bool_decide (prevText ≠ "")
                 then prevText +:+ newline +:+ "[" +:+ now +:+ "] " +:+ text
                 else "[" +:+ now +:+ "] " +:+ text)
              st)).
Proof.
  intros H. unfold acceptTranscription, or_else.
  assert (truthy (Some (JString text)) = true) as Ht
    by (simpl; by apply bool_decide_eq_true_2).
  by rewrite !Ht.
Qed.

(** Whatever is accepted, the new state is the old one with the status
    set and the transcript extended at its end. *)
Lemma acceptTranscription_inr v now st st' :
  acceptTranscription v now st = inr st' →
  ∃ f, st' = setStatusText "Transcription complete. Click to start again."
               (setTranscribedText f st)
     ∧ ∀ prevText, ∃ suffix, f prevText = prevText +:+ suffix.
Proof.
  unfold acceptTranscription. intros H.
  destruct (truthy (or_else v _)).
  - destruct (valueToString (or_else v _)) as [err|text]; [discriminate|].
    injection H as <-. eexists. split; [reflexivity|].
    intros prevText. simpl. case_bool_decide as Hp.
    + by eexists.
    + subst prevText. by eexists.
  - injection H as <-. exists (λ prevText, prevText). split; [reflexivity|].
    intros prevText. exists "". induction prevText as [|x p IH]; [done|].
    change (String x p = String x (p +:+ "")). by rewrite <- IH.
Qed.

Lemma transcriptionAttempt_failed o now st :
  Spec.failed o = true → ∃ err, transcriptionAttempt o now st = inl err.
Proof.
  destruct o as [err|status [err|result]]; simpl; intros H; eauto.
  rewrite H.
  destruct (getProp result "error") as [err|error]; eauto.
  destruct (truthy error); eauto.
  destruct (getProp result "details") as [err|details]; eauto.
Qed.

(** C6, as the code has it.  When a 2xx answer carries a string under
    [transcription], the continuation of [sendAudioForTranscription] acts
    on the stored transcript as [appendResult] acts on the log it renders.
    An empty text leaves the log and the stored string as they were and
    sets no error; any other text adds exactly one entry, last, with that
    text and the time read at receipt.  In both cases the status text
    becomes the completion message and the error text is left as it is, so
    the page displays the completion message exactly when no error text
    is set. *)
Theorem transcript_accumulation st k c status result text now log :
  pendingFetch st k = Some c →
  ok status = true →
  getProp result "transcription" = inr (Some (JString text)) →
  transcribedText st = Spec.renderLog log →
  let st' := step st (FetchSettled k (Answered status (inr result)) now) in
  let log' := Spec.appendResult log text now in
  transcribedText st' = Spec.renderLog log'
  ∧ errorText st' = errorText st
  ∧ (text = "" →
       length log' = length log ∧ transcribedText st' = transcribedText st)
  ∧ (text ≠ "" →
       length log' = S (length log)
       ∧ log' = log ++ [ {| Spec.timestamp := now; Spec.text := text |} ]
       ∧ statusText st' = "Transcription complete. Click to start again.")
  ∧ statusText st' = "Transcription complete. Click to start again."
  ∧ shownError st' = shownError st
  ∧ shownStatus st' =
      if bool_decide (errorText st = "")
      then Some "Transcription complete. Click to start again."
      else None.
Proof.
  intros Hk Hok Hv Hlog st' log'. subst st' log'.
  rewrite (step_FetchSettled _ _ _ _ _ Hk).
  unfold sendAudioForTranscription_settled.
  rewrite (attempt_accepts _ _ _ _ _ Hok Hv).
  unfold Spec.appendResult, shownError, shownStatus.
  destruct (decide (text = "")) as [->|Hne].
  - rewrite acceptTranscription_falsy by done. simpl.
    repeat split; try done.
  - rewrite acceptTranscription_text by done. simpl.
    rewrite renderLog_snoc, length_app, <- Hlog. simpl.
    split; [done|]. split; [done|]. split; [done|].
    split; [|done]. intros _. split; [lia|done].
Qed.

(** C8.  A transcription call that fails (the fetch rejects, the body
    does not parse, or the status is not 2xx) leaves the transcript as
    it was, both when the call is sent and when it settles, and leaves
    an error message that starts with [Error: ] on display in place of
    the status. *)
Theorem failed_transcription_keeps_transcript st k c o now :
  pendingFetch st k = Some c →
  Spec.failed o = true →
  let st' := step st (FetchSettled k o now) in
  transcribedText st' = transcribedText st
  ∧ (∃ message, errorText st' = "Error: " +:+ message)
  ∧ shownError st' = Some (errorText st')
  ∧ shownStatus st' = None
  ∧ ∀ token audioFile,
      transcribedText (sendAudioForTranscription token audioFile st)
      = transcribedText st.
Proof.
  intros Hk Hf st'. subst st'.
  rewrite (step_FetchSettled _ _ _ _ _ Hk).
  unfold sendAudioForTranscription_settled.
  destruct (transcriptionAttempt_failed o now (withFetches (alter settleFetch k) st) Hf)
    as [err ->].
  unfold shownError, shownStatus. simpl.
  repeat split; eauto.
Qed.
End Settling.

Section Settling2.
Import Js App.

(** C10, as the code has it.  A 200 answer whose body is not [null] and
    whose [transcription] member is missing or falsy ([null], [false],
    zero, the empty string) appends nothing, sets no error and sets the
    completion status: the state is the one an empty transcription
    string leaves. *)
Theorem falsy_transcription_appends_nothing st k c result v now :
  pendingFetch st k = Some c →
  getProp result "transcription" = inr v →
  truthy v = false →
  let st' := step st (FetchSettled k (Answered 200 (inr result)) now) in
  transcribedText st' = transcribedText st
  ∧ errorText st' = errorText st
  ∧ statusText st' = "Transcription complete. Click to start again."
  ∧ st' = step st (FetchSettled k
            (Answered 200 (inr (JObject [("transcription", JString "")]))) now).
Proof.
  intros Hk Hv Hf st'. subst st'.
  rewrite !(step_FetchSettled _ _ _ _ _ Hk).
  unfold sendAudioForTranscription_settled.
  rewrite (attempt_accepts _ 200 result v now eq_refl Hv).
  rewrite (attempt_accepts _ 200 (JObject [("transcription", JString "")])
             (Some (JString "")) now eq_refl eq_refl).
  rewrite !acceptTranscription_falsy by done. done.
Qed.

(** C9.  When the start-action fails, because [getUserMedia] rejects or
    because the recorder cannot be built or started, the component is
    not listening afterwards, shows
    [Error accessing microphone: <detail>. Please ensure permission is granted.]
    and has sent no transcription request; no recorder captures that did
    not capture before. *)
Theorem microphone_failure st k a e err :
  pendingAcquisition st k = Some a →
  startFailure e = Some (k, err) →
  let st' := step st e in
  let detail := messageOr "An unknown error occurred." err in
  isListening st' = false
  ∧ errorText st' =
      "Error accessing microphone: " +:+ detail
        +:+ ". Please ensure permission is granted."
  ∧ shownError st' = Some (errorText st')
  ∧ shownStatus st' = None
  ∧ fetches st' = fetches st
  ∧ activeRecorders st' = activeRecorders st.
Proof.
  intros Hk He st' detail. subst st' detail.
  destruct e as [| |k' n o|k' err'| | | |]; try discriminate He.
  - destruct o as [|err'|err']; try discriminate He;
      injection He as -> ->; simpl; rewrite Hk; simpl.
    + unfold shownError, shownStatus. simpl. done.
    + unfold shownError, shownStatus, activeRecorders. simpl.
      rewrite filter_app. by rewrite app_nil_r.
  - injection He as -> ->. simpl. rewrite Hk. simpl.
    unfold shownError, shownStatus. simpl. done.
Qed.
End Settling2.

(** C6, as stated, fails: the recording is sent, the next start-action
    is refused the microphone, and then the 200 answer arrives with a
    text.  The entry is appended and the status text is the completion
    message, but the page does not display it: it displays the microphone
    error, which the answer does not clear. *)
Lemma completion_status_not_displayed :
  let st := App.run App.initial
    [App.Click; App.GetUserMediaResolved 0 1 App.Started; App.Click; App.StopEvent 0;
     App.Click; App.GetUserMediaRejected 1 (Js.ErrorObj "Permission denied")] in
  let answer := Js.JObject [("transcription", Js.JString "hi there")] in
  let st' := App.step st (App.FetchSettled 0 (App.Answered 200 (inr answer)) "10:00:00") in
  App.pendingFetch st 0 ≠ None
  ∧ App.transcribedText st = ""
  ∧ App.transcribedText st' = "[10:00:00] hi there"
  ∧ App.statusText st' = "Transcription complete. Click to start again."
  ∧ App.shownStatus st' = None
  ∧ App.shownError st' =
      Some "Error accessing microphone: Permission denied. Please ensure permission is granted.".
Proof. vm_compute. repeat split. discriminate. Qed.

(** C10, as stated, fails: a 200 answer whose [transcription] is [true]
    (not a string) is appended as the entry text [true], and a 200 answer
    whose body is [null] (no [transcription] member) shows an error
    message. *)
Lemma non_text_transcription_not_coerced :
  let st := App.run App.initial
    [App.Click; App.GetUserMediaResolved 0 1 App.Started; App.Click; App.StopEvent 0] in
  let truthyBody := Js.JObject [("transcription", Js.JBool true)] in
  let st1 := App.step st (App.FetchSettled 0 (App.Answered 200 (inr truthyBody)) "10:00:00") in
  let st2 := App.step st (App.FetchSettled 0 (App.Answered 200 (inr Js.JNull)) "10:00:00") in
  Spec.carriesTranscription truthyBody = false
  ∧ App.transcribedText st = ""
  ∧ App.transcribedText st1 = "[10:00:00] true"
  ∧ Spec.carriesTranscription Js.JNull = false
  ∧ App.errorText st2 = "Error: Cannot read properties of null (reading 'transcription')"
  ∧ App.shownError st2 = Some (App.errorText st2).
Proof. vm_compute. repeat split. Qed.

(** A [transcription] that cannot be turned into a string, an object with
    a member [toString], makes line 45 throw: nothing is appended and the
    conversion's error is shown. *)
Lemma unconvertible_transcription_shows_error :
  let st := App.run App.initial
    [App.Click; App.GetUserMediaResolved 0 1 App.Started; App.Click; App.StopEvent 0] in
  let body :=
    Js.JObject
      [("transcription",
        Js.JObject [("toString", Js.JNumber {| Js.num_nonzero := true; Js.num_text := "1" |})])] in
  let st' := App.step st (App.FetchSettled 0 (App.Answered 200 (inr body)) "10:00:00") in
  App.transcribedText st' = ""
  ∧ App.errorText st' = "Error: Cannot convert object to primitive value"
  ∧ App.statusText st' = "Error during transcription. Please try again.".
Proof. vm_compute. repeat split. Qed.

Section Buffering.
Import Js App.

Ltac crush_step :=
  repeat (simpl in *; try done;
          match goal with
          | |- context [match ?x with _ => _ end] => destruct x eqn:?
          end).

Lemma transcriptionAttempt_inr o now st st' :
  transcriptionAttempt o now st = inr st' →
  ∃ f, st' = setStatusText "Transcription complete. Click to start again."
               (setTranscribedText f st)
     ∧ ∀ prevText, ∃ suffix, f prevText = prevText +:+ suffix.
Proof.
  unfold transcriptionAttempt. intros H.
  repeat match type of H with
         | match ?x with _ => _ end = _ => destruct x eqn:?
         | (if ?x then _ else _) = _ => destruct x eqn:?
         end; simplify_eq.
  by eapply acceptTranscription_inr.
Qed.

Lemma settled_chunks o now st :
  audioChunksRef (sendAudioForTranscription_settled o now st) = audioChunksRef st.
Proof.
  unfold sendAudioForTranscription_settled.
  destruct (transcriptionAttempt o now st) as [err|st'] eqn:E; [done|].
  by apply transcriptionAttempt_inr in E as (f & -> & _).
Qed.

Lemma handleToggleListen_chunks st :
  audioChunksRef (handleToggleListen st) = audioChunksRef st.
Proof. unfold handleToggleListen. crush_step. Qed.

(** What does hold of C7: a zero-length fragment never enters the buffer;
    another fragment is put at its end, when the recorder fires at all. *)
Lemma ondataavailable_chunks data st :
  audioChunksRef (ondataavailable data st) =
    audioChunksRef st ++ filter (λ b, 0 < size b) [data].
Proof.
  unfold ondataavailable. rewrite filter_cons, filter_nil.
  case_bool_decide; case_decide; try done; simpl; try lia.
  by rewrite app_nil_r.
Qed.

Lemma step_chunks st e :
  resolves e = false →
  audioChunksRef (step st e) =
    audioChunksRef st ++ filter (λ b, 0 < size b) (arrivals st [e]).
Proof.
  intros He. destruct e as [v| |k n o|k err|r data|r|r|k o now];
    try discriminate He; simpl; rewrite ?app_nil_r.
  - done.
  - apply handleToggleListen_chunks.
  - destruct (pendingAcquisition st k); simpl; done.
  - destruct (fires st r); simpl; rewrite ?app_nil_r; [|done].
    apply ondataavailable_chunks.
  - crush_step.
  - crush_step.
  - destruct (pendingFetch st k); [|done]. by rewrite settled_chunks.
Qed.

Lemma arrivals_cons st e events :
  arrivals st (e :: events) = arrivals st [e] ++ arrivals (step st e) events.
Proof. simpl. by rewrite app_nil_r. Qed.

(** As long as no start-action takes effect, the one buffer gains the
    fragments of positive size in their order of arrival, whichever
    recorder delivers them. *)
Lemma run_chunks events : ∀ st,
  forallb (λ e, negb (resolves e)) events = true →
  audioChunksRef (run st events) =
    audioChunksRef st ++ filter (λ b, 0 < size b) (arrivals st events).
Proof.
  induction events as [|e events IH]; intros st H.
  - simpl. by rewrite app_nil_r.
  - simpl in H. apply andb_true_iff in H as [He H]. apply negb_true_iff in He.
    change (run st (e :: events)) with (run (step st e) events).
    rewrite (arrivals_cons st e events), filter_app.
    by rewrite (IH _ H), (step_chunks _ _ He), <- app_assoc.
Qed.

(** Line 79: a start-action that takes effect empties the buffer, also
    when an earlier recorder has still to deliver or to fire [stop]. *)
Lemma started_chunks st k a n :
  pendingAcquisition st k = Some a →
  audioChunksRef (step st (GetUserMediaResolved k n Started)) = [].
Proof. intros H. simpl. by rewrite H. Qed.

Lemma recordedFile_bytes chunks :
  recordedFile chunks =
    {| file_name := "recording.webm";
       file_type := "audio/webm";
       file_bytes := mjoin (blob_bytes <$> chunks) |}.
Proof. unfold recordedFile, newFile, newBlob. simpl. by rewrite app_nil_r. Qed.

Lemma step_StopEvent st r rec :
  recorders st !! r = Some rec →
  stopQueued rec = true →
  step st (StopEvent r) =
    onstop (rec_stream rec) (rec_token rec) (withRecorders (alter clearStopQueued r) st).
Proof. intros H Hq. simpl. by rewrite H, Hq. Qed.

(** Lines 88-91: the file a recorder posts when it fires [stop] is the
    concatenation of whatever the one buffer holds at that moment. *)
Lemma stop_posts_buffer st r rec :
  recorders st !! r = Some rec →
  stopQueued rec = true →
  ∃ call,
    fetches (step st (StopEvent r)) = fetches st ++ [call]
    ∧ uploadedAudio (fetch_request call) =
        Some {| file_name := "recording.webm";
                file_type := "audio/webm";
                file_bytes := mjoin (blob_bytes <$> audioChunksRef st) |}.
Proof.
  intros Hr Hq. rewrite (step_StopEvent _ _ _ Hr Hq).
  unfold onstop. rewrite recordedFile_bytes.
  unfold sendAudioForTranscription. simpl.
  eexists. split; [done|]. simpl.
  by destruct (bool_decide (rec_token rec ≠ "")).
Qed.
End Buffering.

(** C7, at the failing inputs.  The buffer of line 16 is shared by all
    recorders and emptied by every start (line 79).  In [mixed] the user
    stops and starts again, and the first recorder delivers its last
    fragment after the second start has taken effect: the first recording
    is posted as [ab], and the second, whose recorder delivered [xy]
    alone, is posted as [abxy].  In [lost] the first recorder fires [stop]
    after the second start has emptied the buffer and the second recorder
    has delivered [cd]: the first recording is posted as [cd], and the
    fragment [ab] it retained is in no file.  In both runs the button is
    only pressed while no start is pending. *)
Theorem restart_mixes_recordings :
  let ab := Samples.fragment "ab" in
  let cd := Samples.fragment "cd" in
  let xy := Samples.fragment "xy" in
  let mixed :=
    [App.Click; App.GetUserMediaResolved 0 1 App.Started;
     App.Click; App.Click; App.GetUserMediaResolved 1 1 App.Started;
     App.DataAvailable 0 ab; App.StopEvent 0;
     App.Click; App.DataAvailable 1 xy; App.StopEvent 1] in
  let lost :=
    [App.Click; App.GetUserMediaResolved 0 1 App.Started; App.DataAvailable 0 ab;
     App.Click; App.Click; App.GetUserMediaResolved 1 1 App.Started;
     App.DataAvailable 1 cd; App.StopEvent 0] in
  (Observe.orderly App.initial mixed = true
   ∧ App.arrivals App.initial mixed = [ab; xy]
   ∧ Observe.posted (App.run App.initial mixed) = ["ab"; "abxy"])
  ∧ (Observe.orderly App.initial lost = true
     ∧ App.arrivals App.initial lost = [ab; cd]
     ∧ Observe.posted (App.run App.initial lost) = ["cd"]).
Proof. vm_compute. repeat split. Qed.

Section Sessions.
Import Js App.

Lemma press_while_listening_starts_nothing st :
  isListening st = true →
  let st' := step st Click in
  isListening st' = false
  ∧ acquisitions st' = acquisitions st
  ∧ streams st' = streams st
  ∧ length (recorders st') = length (recorders st)
  ∧ fetches st' = fetches st.
Proof.
  intros H. simpl. unfold handleToggleListen. simpl. rewrite H.
  destruct (mediaRecorderRef st) as [r|]; simpl; [|done].
  destruct (recorders st !! r) as [rec|]; simpl; [|done].
  destruct (bool_decide (rec_state rec = recording)); simpl; [|done].
  by rewrite length_alter.
Qed.

Lemma stop_action_queues_stop st r rec :
  isListening st = true →
  mediaRecorderRef st = Some r →
  recorders st !! r = Some rec →
  rec_state rec = recording →
  recorders (step st Click) !! r = Some (MediaRecorder_stop rec).
Proof.
  intros Hl Hr Hrec Hs. simpl. unfold handleToggleListen. simpl.
  rewrite Hl, Hr. simpl. rewrite Hrec, bool_decide_eq_true_2 by done. simpl.
  by rewrite list_lookup_alter_eq, Hrec.
Qed.

Lemma stop_event_releases_stream st r rec s :
  recorders st !! r = Some rec →
  stopQueued rec = true →
  streams st !! rec_stream rec = Some s →
  let st' := step st (StopEvent r) in
  ∃ s', streams st' !! rec_stream rec = Some s'
      ∧ releases s' = S <$> releases s
      ∧ ∀ j, j ≠ rec_stream rec → streams st' !! j = streams st !! j.
Proof.
  intros Hr Hq Hs st'. subst st'. rewrite (step_StopEvent _ _ _ Hr Hq).
  unfold onstop, stopTracks. simpl.
  eexists. split; [by rewrite list_lookup_alter_eq, Hs|]. split.
  - unfold releases. simpl. rewrite <- !list_fmap_compose. done.
  - intros j Hj. by rewrite list_lookup_alter_ne.
Qed.
End Sessions.

(** C4, at the failing input.  The button is pressed twice before the
    first [getUserMedia] settles: the second press still finds
    [isListening] false, so [getUserMedia] is called twice, and once both
    calls have resolved two recorders capture at the same time, each on a
    live stream of its own. *)
Theorem double_press_starts_two_sessions :
  let st := App.run App.initial
    [App.Click; App.Click;
     App.GetUserMediaResolved 0 1 App.Started;
     App.GetUserMediaResolved 1 1 App.Started] in
  App.reachable st
  ∧ App.isListening (App.run App.initial [App.Click]) = false
  ∧ length (App.acquisitions st) = 2
  ∧ length (App.activeRecorders st) = 2
  ∧ App.releases <$> App.streams st = [[0]; [0]].
Proof.
  intros st. split; [by eexists|]. vm_compute. repeat split.
Qed.

(** C5, at the failing input.  After the double press of C4, the
    stop-action stops only the recorder that [mediaRecorderRef] holds (the
    one built last): the other recorder keeps capturing, no [stop] event
    is queued for it, and the tracks of its stream are never stopped,
    whichever of the two [getUserMedia] calls resolved first. *)
Theorem double_press_leaks_stream :
  let inOrder := App.run App.initial
    [App.Click; App.Click;
     App.GetUserMediaResolved 0 1 App.Started;
     App.GetUserMediaResolved 1 1 App.Started;
     App.Click; App.StopEvent 1] in
  let outOfOrder := App.run App.initial
    [App.Click; App.Click;
     App.GetUserMediaResolved 1 1 App.Started;
     App.GetUserMediaResolved 0 1 App.Started;
     App.Click; App.StopEvent 1] in
  (App.isListening inOrder = false
   ∧ App.releases <$> App.streams inOrder = [[0]; [1]]
   ∧ App.rec_state <$> App.recorders inOrder = [App.recording; App.inactive]
   ∧ App.stopQueued <$> App.recorders inOrder = [false; false]
   ∧ App.mediaRecorderRef inOrder = Some 1)
  ∧ (App.isListening outOfOrder = false
     ∧ App.releases <$> App.streams outOfOrder = [[0]; [1]]
     ∧ App.rec_state <$> App.recorders outOfOrder = [App.recording; App.inactive]
     ∧ App.stopQueued <$> App.recorders outOfOrder = [false; false]
     ∧ App.mediaRecorderRef outOfOrder = Some 1).
Proof. vm_compute. repeat split. Qed.

Lemma transcript_accumulation_witness :
  let st := App.run App.initial
    [App.Click; App.GetUserMediaResolved 0 1 App.Started; App.Click; App.StopEvent 0] in
  let answer := Js.JObject [("transcription", Js.JString "hi there")] in
  let st' := App.step st (App.FetchSettled 0 (App.Answered 200 (inr answer)) "10:00:00") in
  App.transcribedText st = Spec.renderLog []
  ∧ App.transcribedText st' =
      Spec.renderLog [ {| Spec.timestamp := "10:00:00"; Spec.text := "hi there" |} ]
  ∧ App.shownStatus st' = Some "Transcription complete. Click to start again.".
Proof.
  intros st answer st'. split; [reflexivity|].
  destruct (App.pendingFetch st 0) as [c|] eqn:Hk; [|vm_compute in Hk; discriminate].
  destruct (transcript_accumulation st 0 c 200 answer "hi there" "10:00:00" []
              Hk eq_refl eq_refl eq_refl) as (H1 & _ & _ & _ & _ & _ & H7).
  split; [exact H1|exact H7].
Defined.

Lemma failed_transcription_keeps_transcript_witness :
  let st := App.run App.initial
    [App.Click; App.GetUserMediaResolved 0 1 App.Started; App.Click; App.StopEvent 0] in
  let o := App.Answered 500
    (inr (Js.JObject [("error", Js.JString "Failed to transcribe audio.");
                      ("details", Js.JString "quota")])) in
  let st' := App.step st (App.FetchSettled 0 o "10:00:00") in
  Spec.failed o = true
  ∧ App.transcribedText st' = App.transcribedText st
  ∧ App.shownError st' = Some "Error: Failed to transcribe audio.".
Proof.
  intros st o st'. split; [reflexivity|].
  destruct (App.pendingFetch st 0) as [c|] eqn:Hk; [|vm_compute in Hk; discriminate].
  destruct (failed_transcription_keeps_transcript st 0 c o "10:00:00" Hk eq_refl)
    as (H1 & _ & H3 & _).
  split; [exact H1|exact H3].
Defined.

Lemma microphone_failure_witness :
  let st := App.step App.initial App.Click in
  let e := App.GetUserMediaRejected 0 (Js.ErrorObj "Permission denied") in
  App.startFailure e = Some (0, Js.ErrorObj "Permission denied")
  ∧ App.isListening (App.step st e) = false
  ∧ App.errorText (App.step st e) =
      "Error accessing microphone: Permission denied. Please ensure permission is granted.".
Proof.
  intros st e. split; [reflexivity|].
  destruct (App.pendingAcquisition st 0) as [a|] eqn:Hk; [|vm_compute in Hk; discriminate].
  destruct (microphone_failure st 0 a e _ Hk eq_refl) as (H1 & H2 & _).
  split; [exact H1|exact H2].
Defined.

Lemma falsy_transcription_appends_nothing_witness :
  let st := App.run App.initial
    [App.Click; App.GetUserMediaResolved 0 1 App.Started; App.Click; App.StopEvent 0] in
  let result := Js.JObject [("note", Js.JString "nothing heard")] in
  let st' := App.step st (App.FetchSettled 0 (App.Answered 200 (inr result)) "10:00:00") in
  Js.getProp result "transcription" = inr None
  ∧ App.transcribedText st' = App.transcribedText st
  ∧ App.errorText st' = App.errorText st.
Proof.
  intros st result st'. split; [reflexivity|].
  destruct (App.pendingFetch st 0) as [c|] eqn:Hk; [|vm_compute in Hk; discriminate].
  destruct (falsy_transcription_appends_nothing st 0 c result None "10:00:00"
              Hk eq_refl eq_refl) as (H1 & H2 & _).
  split; [exact H1|exact H2].
Defined.

(* ===================================================================== *)
(** ** Further properties of the gateway *)
(* ===================================================================== *)

Section GatewayMore.
Import Js Gateway.
Variable sdk : Sdk.

Lemma resolveCredential_text srv token :
  effects (resolveCredential sdk srv (FormString <$> token)) = []
  ∧ ∃ res, outcome (resolveCredential sdk srv (FormString <$> token)) = inr res.
Proof.
  destruct (Spec.credentialOffered token) eqn:C.
  - destruct token as [t|]; [|done]. simpl in C. apply negb_true_iff in C.
    cbn [fmap option_fmap option_map]. rewrite (resolve_offered sdk srv _ C).
    destruct (sdk_new sdk t); [by eauto|].
    destruct (sdk_getGenerativeModel sdk _ _); by eauto.
  - rewrite (resolve_unoffered sdk srv _ C).
    destruct (genAI srv), (model srv); by eauto.
Qed.

(** Resolving the credential calls nothing. *)
Lemma resolveCredential_quiet srv token :
  effects (resolveCredential sdk srv token) = [].
Proof.
  destruct token as [[t|f]|]; [|done|].
  - apply (resolveCredential_text srv (Some t)).
  - apply (resolveCredential_text srv None).
Qed.

Lemma POST_resolved srv fd res :
  outcome (resolveCredential sdk srv (gemini_api_token fd)) = inr res →
  POST sdk srv {| formData := inr fd |} =
    match res with
    | Use m => transcribe sdk m (audio_file fd)
    | Reply r => ([], inr r)
    end.
Proof.
  intros H. rewrite POST_parsed.
  pose proof (resolveCredential_quiet srv (gemini_api_token fd)) as He.
  destruct (resolveCredential sdk srv (gemini_api_token fd)) as [tr o].
  simpl in *. subst. destruct res as [m|r]; [|done].
  by destruct (transcribe sdk m (audio_file fd)).
Qed.

Lemma POST_faulted srv fd t :
  outcome (resolveCredential sdk srv (gemini_api_token fd)) = inl t →
  POST sdk srv {| formData := inr fd |} = ([], inl t).
Proof.
  intros H. rewrite POST_parsed.
  pose proof (resolveCredential_quiet srv (gemini_api_token fd)) as He.
  destruct (resolveCredential sdk srv (gemini_api_token fd)) as [tr o].
  simpl in *. by subst.
Qed.

Lemma transcribe_effects m audio :
  effects (transcribe sdk m audio) =
    match audio with
    | Some (FormFile file) =>
        match arrayBuffer file with
        | inr bytes => [GenerateContent m (Observe.transcriptionRequest bytes)]
        | inl _ => []
        end
    | _ => []
    end.
Proof.
  unfold transcribe, effects. destruct audio as [[s|file]|]; [|..|done]; simpl.
  { by case_bool_decide. }
  destruct (arrayBuffer file) as [t|bytes]; [done|]. simpl.
  fold (Observe.transcriptionRequest bytes).
  destruct (sdk_generateContent sdk m _) as [t|res]; [done|]. simpl.
  by destruct (response_text res).
Qed.

(** X2.  The handler calls the service at most once, and exactly when a client
    was resolved and the upload could be read; the request is the fixed
    prompt with the base64 text of the bytes, labelled [audio/webm], under
    the fixed generation and safety settings. *)
Theorem external_call_at_most_once srv fd :
  let run := POST sdk srv {| formData := inr fd |} in
  length (effects run) ≤ 1
  ∧ effects run =
      match outcome (resolveCredential sdk srv (gemini_api_token fd)), audio_file fd with
      | inr (Use m), Some (FormFile file) =>
          match arrayBuffer file with
          | inr bytes => [GenerateContent m (Observe.transcriptionRequest bytes)]
          | inl _ => []
          end
      | _, _ => []
      end.
Proof.
  intros run. subst run.
  destruct (outcome (resolveCredential sdk srv (gemini_api_token fd)))
    as [t|res] eqn:Hres.
  { rewrite (POST_faulted _ _ _ Hres). simpl. split; [lia|done]. }
  rewrite (POST_resolved _ _ _ Hres).
  destruct res as [m|r]; [|split; simpl; [lia|by destruct (audio_file fd) as [[?|?]|]]].
  rewrite transcribe_effects.
  destruct (audio_file fd) as [[s|file]|]; [split; simpl; [lia|done]| |split; simpl; [lia|done]].
  destruct (arrayBuffer file); simpl; split; (lia || done).
Qed.

Lemma transcribe_reads_bytes_only m file file' :
  arrayBuffer file = arrayBuffer file' →
  transcribe sdk m (Some (FormFile file)) = transcribe sdk m (Some (FormFile file')).
Proof. intros H. unfold transcribe. by rewrite H. Qed.

(** X3.  The name and the declared type of the upload have no influence: two
    requests that differ only there get the same external call and the
    same answer. *)
Theorem upload_metadata_ignored srv token file file' :
  arrayBuffer file = arrayBuffer file' →
  POST sdk srv
    {| formData := inr {| audio_file := Some (FormFile file); gemini_api_token := token |} |}
  = POST sdk srv
    {| formData := inr {| audio_file := Some (FormFile file'); gemini_api_token := token |} |}.
Proof.
  intros H.
  destruct (outcome (resolveCredential sdk srv token)) as [t|res] eqn:Hres.
  { by rewrite !(POST_faulted _ _ t) by exact Hres. }
  rewrite !(POST_resolved _ _ res) by exact Hres. simpl.
  destruct res; [|done]. by apply transcribe_reads_bytes_only.
Qed.

(** X4.  A credential of white space only is handled as no credential at all. *)
Theorem blank_token_is_no_token srv audio token :
  Spec.blank token = true →
  POST sdk srv
    {| formData := inr {| audio_file := audio; gemini_api_token := Some (FormString token) |} |}
  = POST sdk srv {| formData := inr {| audio_file := audio; gemini_api_token := None |} |}.
Proof.
  intros H. rewrite !POST_parsed. cbn [gemini_api_token audio_file].
  pose proof (resolve_unoffered sdk srv (Some token)) as R1.
  pose proof (resolve_unoffered sdk srv None eq_refl) as R2.
  cbn [fmap option_fmap option_map] in R1, R2.
  rewrite R1 by (simpl; by rewrite H). by rewrite R2.
Qed.

(** X5.  When the caller offers a credential that is not blank, the server's
    own client plays no part: the answer and the external call are the
    same whatever the server holds, also when the caller's credential is
    refused. *)
Theorem offered_token_ignores_default srv srv' audio token :
  Spec.blank token = false →
  POST sdk srv
    {| formData := inr {| audio_file := audio; gemini_api_token := Some (FormString token) |} |}
  = POST sdk srv'
    {| formData := inr {| audio_file := audio; gemini_api_token := Some (FormString token) |} |}.
Proof.
  intros H. rewrite !POST_parsed. cbn [gemini_api_token audio_file].
  by rewrite (resolve_offered sdk srv _ H), (resolve_offered sdk srv' _ H).
Qed.
End GatewayMore.

Lemma blank_token_is_no_token_witness :
  Spec.blank "  " = true
  ∧ Gateway.POST (Samples.quietSdk "hi") Samples.noDefault
      {| Gateway.formData :=
           inr {| Gateway.audio_file := None;
                  Gateway.gemini_api_token := Some (Gateway.FormString "  ") |} |}
    = Gateway.POST (Samples.quietSdk "hi") Samples.noDefault
      {| Gateway.formData := inr {| Gateway.audio_file := None;
                                    Gateway.gemini_api_token := None |} |}.
Proof.
  split; [reflexivity|].
  exact (blank_token_is_no_token (Samples.quietSdk "hi") Samples.noDefault None "  " eq_refl).
Defined.

Section GatewayStart.
Import Js Gateway.
Variable sdk : Sdk.

(** X6.  A server that started holds its client and its model together, both
    built from a key that is not empty, or neither; starting makes no
    external call, and without a key it cannot fail. *)
Theorem started_server_default key :
  effects (startServer sdk key) = []
  ∧ match outcome (startServer sdk key) with
    | inr srv =>
        match key with
        | Some k =>
            if bool_decide (k ≠ "")
            then genAI srv = Some {| apiKey := k |} ∧ model srv = Some (freshModel k)
            else genAI srv = None ∧ model srv = None
        | None => genAI srv = None ∧ model srv = None
        end
    | inl t =>
        ∃ k, key = Some k ∧ k ≠ ""
           ∧ (sdk_new sdk k = Some t
              ∨ sdk_getGenerativeModel sdk {| apiKey := k |} "gemini-2.0-flash-001" = Some t)
    end.
Proof.
  unfold startServer. destruct key as [k|]; [|done].
  case_bool_decide as Hk; [|done]. simpl.
  unfold newGoogleGenerativeAI.
  destruct (sdk_new sdk k) as [t|] eqn:E1; simpl.
  { split; [done|]. eauto. }
  unfold getGenerativeModel.
  destruct (sdk_getGenerativeModel sdk _ _) as [t|] eqn:E2; simpl.
  { split; [done|]. eauto. }
  done.
Qed.

(** X7.  Started without a key (unset or empty), the server answers every
    request that offers no credential (the token field is missing or a
    blank string) with the 500 configuration error, whatever else it
    carries, and calls nothing. *)
Theorem keyless_server_needs_token key audio token :
  key = None ∨ key = Some "" →
  Spec.credentialOffered token = false →
  ∃ srv, startServer sdk key = ([], inr srv)
       ∧ POST sdk srv
           {| formData := inr {| audio_file := audio;
                                 gemini_api_token := FormString <$> token |} |} =
           ([], inr {| status := 500;
                       body := JObject [("error", JString
       "API token is required. Configure it on the server or provide it in the request.")] |}).
Proof.
  intros Hkey Hc. exists {| genAI := None; model := None |}. split.
  - by destruct Hkey as [-> | ->].
  - rewrite POST_parsed. cbn [gemini_api_token audio_file].
    by rewrite (resolve_unoffered sdk _ _ Hc).
Qed.

(** X8.  Started with a key on which the SDK does not throw, the server serves
    every request that offers no credential with the client of that key. *)
Theorem keyed_server_serves_with_key k audio token :
  k ≠ "" →
  sdk_new sdk k = None →
  sdk_getGenerativeModel sdk {| apiKey := k |} "gemini-2.0-flash-001" = None →
  Spec.credentialOffered token = false →
  ∃ srv, startServer sdk (Some k) = ([], inr srv)
       ∧ POST sdk srv
           {| formData := inr {| audio_file := audio;
                                 gemini_api_token := FormString <$> token |} |}
         = transcribe sdk (freshModel k) audio.
Proof.
  intros Hk H1 H2 Hc.
  exists {| genAI := Some {| apiKey := k |}; model := Some (freshModel k) |}. split.
  - unfold startServer. rewrite bool_decide_eq_true_2 by done. simpl.
    unfold newGoogleGenerativeAI. rewrite H1. simpl.
    unfold getGenerativeModel. by rewrite H2.
  - rewrite POST_parsed. cbn [gemini_api_token audio_file].
    rewrite (resolve_unoffered sdk _ _ Hc). simpl.
    by destruct (transcribe sdk (freshModel k) audio).
Qed.

(** X9.  What the service does with the one call decides the answer: its text
    comes back under status 200, also when it is empty; a value thrown by
    the call or by reading the text comes back as the 500 error whose
    [details] is the message of the error, or a fixed text for a thrown
    value that is not an [Error]. *)
Theorem service_result_relayed srv fd m file bytes :
  outcome (resolveCredential sdk srv (gemini_api_token fd)) = inr (Use m) →
  audio_file fd = Some (FormFile file) →
  arrayBuffer file = inr bytes →
  let failure e :=
    {| status := 500;
       body := JObject [("error", JString "Failed to transcribe audio.");
                        ("details", JString (messageOr "An unknown error occurred" e))] |} in
  outcome (POST sdk srv {| formData := inr fd |}) =
    inr match sdk_generateContent sdk m (Observe.transcriptionRequest bytes) with
        | inr result =>
            match response_text result with
            | inr text =>
                {| status := 200; body := JObject [("transcription", JString text)] |}
            | inl e => failure e
            end
        | inl e => failure e
        end.
Proof.
  intros Hres Ha Hb failure. rewrite (POST_resolved _ _ _ _ Hres), Ha.
  unfold transcribe, outcome. rewrite Hb. simpl.
  fold (Observe.transcriptionRequest bytes).
  destruct (sdk_generateContent sdk m _) as [e|result]; [done|]. simpl.
  by destruct (response_text result).
Qed.
End GatewayStart.

Section Base64.
Import Js Observe.

Lemma digit_value n : (n < 64)%N → base64Value (base64Digit n) = Some n.
Proof.
  intros H. rewrite <- (N2Nat.id n). assert (N.to_nat n < 64) as Hn by lia.
  generalize dependent (N.to_nat n). clear. intros i Hi.
  do 64 (destruct i as [|i]; [vm_compute; reflexivity|]). lia.
Qed.

Lemma digit_not_pad n : (n < 64)%N → base64Digit n ≠ "="%char.
Proof.
  intros H. rewrite <- (N2Nat.id n). assert (N.to_nat n < 64) as Hn by lia.
  generalize dependent (N.to_nat n). clear. intros i Hi.
  do 64 (destruct i as [|i]; [vm_compute; discriminate|]). lia.
Qed.

Lemma byte_small b : (Byte.to_N b < 256)%N.
Proof. pose proof (Byte.to_N_bounded b). lia. Qed.

Ltac divmod := Z.to_euclidean_division_equations; lia.

Lemma split_x x y : (x < 256 → y < 256 →
  x / 4 < 64 ∧ (x mod 4) * 16 + y / 16 < 64
  ∧ (x / 4) * 4 + ((x mod 4) * 16 + y / 16) / 16 = x
  ∧ (((x mod 4) * 16 + y / 16) mod 16) = y / 16)%N.
Proof. intros. repeat split; zify; divmod. Qed.

Lemma split_y y z : (y < 256 → z < 256 →
  (y mod 16) * 4 + z / 64 < 64
  ∧ (y / 16) * 16 + ((y mod 16) * 4 + z / 64) / 4 = y
  ∧ ((y mod 16) * 4 + z / 64) mod 4 = z / 64
  ∧ z mod 64 < 64
  ∧ (z / 64) * 64 + z mod 64 = z)%N.
Proof. intros. repeat split; zify; divmod. Qed.

Lemma unbase64_tail c1 c2 c3 c4 rest a b c d :
  base64Value c1 = Some a → base64Value c2 = Some b →
  base64Value c3 = Some c → base64Value c4 = Some d →
  c3 ≠ "="%char → c4 ≠ "="%char →
  unbase64 (String c1 (String c2 (String c3 (String c4 rest)))) =
    x' ← Byte.of_N (a * 4 + b / 16)%N;
    y' ← Byte.of_N ((b mod 16) * 16 + c / 4)%N;
    z' ← Byte.of_N ((c mod 4) * 64 + d)%N;
    tail ← unbase64 rest;
    Some (x' :: y' :: z' :: tail).
Proof.
  intros H1 H2 H3 H4 N3 N4.
  change (unbase64 (String c1 (String c2 (String c3 (String c4 rest)))))
    with (match base64Value c1, base64Value c2 with
      | Some a, Some b =>
          let x := (a * 4 + b / 16)%N in
          if decide (c3 = "="%char) then
            if decide (c4 = "="%char) then
              match rest with
              | EmptyString => (λ x, [x]) <$> Byte.of_N x
              | _ => None
              end
            else None
          else
            match base64Value c3 with
            | Some c =>
                let y := ((b mod 16) * 16 + c / 4)%N in
                if decide (c4 = "="%char) then
                  match rest with
                  | EmptyString =>
                      x' ← Byte.of_N x; y' ← Byte.of_N y; Some [x'; y']
                  | _ => None
                  end
                else
                  match base64Value c4 with
                  | Some d =>
                      let z := ((c mod 4) * 64 + d)%N in
                      x' ← Byte.of_N x; y' ← Byte.of_N y; z' ← Byte.of_N z;
                      tail ← unbase64 rest;
                      Some (x' :: y' :: z' :: tail)
                  | None => None
                  end
            | None => None
            end
      | _, _ => None
      end).
  rewrite H1, H2, H3, H4, !decide_False by done. done.
Qed.

Lemma unbase64_base64_bounded n : ∀ bs, length bs ≤ n → unbase64 (base64 bs) = Some bs.
Proof.
  induction n as [|n IH]; intros bs Hn.
  { destruct bs; [done|simpl in Hn; lia]. }
  destruct bs as [|a [|b [|c rest]]]; [done| | |].
  - pose proof (byte_small a) as Ha.
    destruct (split_x _ 0%N Ha ltac:(lia)) as (X1 & X2 & X3 & _).
    change (base64 [a]) with
      (String (base64Digit (Byte.to_N a / 4))
         (String (base64Digit ((Byte.to_N a mod 4) * 16)) "==")).
    replace ((Byte.to_N a mod 4) * 16)%N with ((Byte.to_N a mod 4) * 16 + 0 / 16)%N
      by (change (0 / 16)%N with 0%N; lia).
    cbn [unbase64]. rewrite !digit_value by done.
    rewrite !decide_True by done. rewrite X3, Byte.of_to_N. done.
  - pose proof (byte_small a) as Ha. pose proof (byte_small b) as Hb.
    destruct (split_x _ _ Ha Hb) as (X1 & X2 & X3 & X4).
    destruct (split_y _ 0%N Hb ltac:(lia)) as (Y1 & Y2 & _).
    change (base64 [a; b]) with
      (String (base64Digit (Byte.to_N a / 4))
         (String (base64Digit ((Byte.to_N a mod 4) * 16 + Byte.to_N b / 16))
            (String (base64Digit ((Byte.to_N b mod 16) * 4)) "="))).
    replace ((Byte.to_N b mod 16) * 4)%N with ((Byte.to_N b mod 16) * 4 + 0 / 64)%N
      by (change (0 / 64)%N with 0%N; lia).
    cbn [unbase64]. rewrite !digit_value by done.
    rewrite (decide_False (P := base64Digit _ = "="%char)) by (by apply digit_not_pad).
    rewrite decide_True by done.
    rewrite X3, X4, Y2, !Byte.of_to_N. done.
  - pose proof (byte_small a) as Ha. pose proof (byte_small b) as Hb.
    pose proof (byte_small c) as Hc.
    destruct (split_x _ _ Ha Hb) as (X1 & X2 & X3 & X4).
    destruct (split_y _ _ Hb Hc) as (Y1 & Y2 & Y3 & Y4 & Y5).
    change (base64 (a :: b :: c :: rest)) with
      (String (base64Digit (Byte.to_N a / 4))
         (String (base64Digit ((Byte.to_N a mod 4) * 16 + Byte.to_N b / 16))
            (String (base64Digit ((Byte.to_N b mod 16) * 4 + Byte.to_N c / 64))
               (String (base64Digit (Byte.to_N c mod 64)) (base64 rest))))).
    rewrite (unbase64_tail _ _ _ _ _ _ _ _ _
               (digit_value _ X1) (digit_value _ X2) (digit_value _ Y1) (digit_value _ Y4)
               (digit_not_pad _ Y1) (digit_not_pad _ Y4)).
    rewrite X3, X4, Y2, Y3, Y5, !Byte.of_to_N. simpl.
    rewrite IH by (simpl in Hn; lia). done.
Qed.

(** X10.  The base64 text of the request stands for the uploaded bytes and no
    others: decoding it gives them back. *)
Theorem unbase64_base64 bs : unbase64 (base64 bs) = Some bs.
Proof. by apply (unbase64_base64_bounded (length bs)). Qed.

(** X11.  The text is four characters for every three bytes, the last group
    padded. *)
Theorem base64_length bs :
  String.length (base64 bs) = 4 * ((length bs + 2) / 3).
Proof.
  assert (∀ n bs, length bs ≤ n →
            String.length (base64 bs) = 4 * ((length bs + 2) / 3)) as H.
  { clear bs. induction n as [|n IH]; intros bs Hn.
    { destruct bs; [done|simpl in Hn; lia]. }
    destruct bs as [|a [|b [|c rest]]]; [done..|].
    change (base64 (a :: b :: c :: rest)) with
      (String (base64Digit (Byte.to_N a / 4))
         (String (base64Digit ((Byte.to_N a mod 4) * 16 + Byte.to_N b / 16))
            (String (base64Digit ((Byte.to_N b mod 16) * 4 + Byte.to_N c / 64))
               (String (base64Digit (Byte.to_N c mod 64)) (base64 rest))))).
    cbn [String.length length]. rewrite IH by (simpl in Hn; lia).
    replace (S (S (S (length rest))) + 2) with (1 * 3 + (length rest + 2)) by lia.
    rewrite Nat.div_add_l by lia. lia. }
  by apply (H (length bs)).
Qed.
End Base64.

(* ===================================================================== *)
(** ** Further properties of the client *)
(* ===================================================================== *)

Section Consistency.
Import Js App Observe.

Lemma settled_recorders o now st :
  recorders (sendAudioForTranscription_settled o now st) = recorders st
  ∧ streams (sendAudioForTranscription_settled o now st) = streams st.
Proof.
  unfold sendAudioForTranscription_settled.
  destruct (transcriptionAttempt o now st) as [err|st'] eqn:E; [done|].
  by apply transcriptionAttempt_inr in E as (f & -> & _).
Qed.

Lemma alter_snoc {A} (f : A → A) (l : list A) x :
  alter f (length l) (l ++ [x]) = l ++ [f x].
Proof.
  rewrite <- (Nat.add_0_r (length l)) at 1. by rewrite alter_app_r.
Qed.

(** Every task changes the recorders and the streams in one of the five
    ways of [Change]. *)
Lemma step_change st e :
  Change (recorders st) (streams st) (recorders (step st e)) (streams (step st e)).
Proof.
  destruct e as [v| |k n o|k err|r data|r|r|k o now]; simpl.
  - constructor.
  - unfold handleToggleListen. simpl.
    destruct (isListening st); simpl; [|constructor].
    destruct (mediaRecorderRef st) as [r|]; simpl; [|constructor].
    destruct (recorders st !! r) as [rec|] eqn:Hr; simpl; [|constructor].
    case_bool_decide as Hs; simpl; [|constructor].
    by apply (Stopped _ _ r rec).
  - destruct (pendingAcquisition st k) as [a|]; [|constructor].
    destruct o as [|err|err]; simpl.
    + rewrite alter_snoc. apply (Built _ _ n (acq_token a) true).
    + apply Acquired.
    + apply (Built _ _ n (acq_token a) false).
  - destruct (pendingAcquisition st k); simpl; constructor.
  - destruct (fires st r); [|constructor].
    unfold ondataavailable. case_bool_decide; simpl; constructor.
  - destruct (recorders st !! r) as [rec|] eqn:Hr; [|constructor].
    case_bool_decide as Hs; simpl; [|constructor].
    by apply (Stopped _ _ r rec).
  - destruct (recorders st !! r) as [rec|] eqn:Hr; [|constructor].
    destruct (stopQueued rec) eqn:Hq; [|constructor].
    simpl. by apply (Fired _ _ r rec).
  - destruct (pendingFetch st k); [|constructor].
    destruct (settled_recorders o now (withFetches (alter settleFetch k) st)) as [-> ->].
    simpl. constructor.
Qed.

Lemma releases_newStream n : releases (newStream n) = replicate n 0.
Proof. unfold releases, newStream. simpl. by rewrite fmap_replicate. Qed.

Lemma consistent_change rs ss rs' ss' :
  Change rs ss rs' ss' → consistent rs ss → consistent rs' ss'.
Proof.
  intros Hch (Hlt & Hinj & Hq & Hle & Hlive).
  destruct Hch as [|r rec Hr Hs|r rec Hr Hqd|n|n token started].
  - done.
  - (* a capturing recorder is stopped *)
    repeat split.
    + intros r0 rec0 H0. destruct (decide (r0 = r)) as [->|Hne].
      * rewrite list_lookup_alter_eq, Hr in H0. simplify_eq/=. eauto.
      * rewrite list_lookup_alter_ne in H0 by done. eauto.
    + intros r1 r2 rec1 rec2 H1 H2 Heq.
      assert (∃ old, rs !! r1 = Some old ∧ rec_stream old = rec_stream rec1) as (o1 & Ho1 & E1).
      { destruct (decide (r1 = r)) as [->|Hne].
        - rewrite list_lookup_alter_eq, Hr in H1. simplify_eq/=. eauto.
        - rewrite list_lookup_alter_ne in H1 by done. eauto. }
      assert (∃ old, rs !! r2 = Some old ∧ rec_stream old = rec_stream rec2) as (o2 & Ho2 & E2).
      { destruct (decide (r2 = r)) as [->|Hne].
        - rewrite list_lookup_alter_eq, Hr in H2. simplify_eq/=. eauto.
        - rewrite list_lookup_alter_ne in H2 by done. eauto. }
      eapply Hinj; eauto. congruence.
    + intros r0 rec0 H0 Hq0. destruct (decide (r0 = r)) as [->|Hne].
      * rewrite list_lookup_alter_eq, Hr in H0. by simplify_eq/=.
      * rewrite list_lookup_alter_ne in H0 by done. eauto.
    + done.
    + intros r0 rec0 stream H0 Hact Hst. destruct (decide (r0 = r)) as [->|Hne].
      * rewrite list_lookup_alter_eq, Hr in H0. simplify_eq/=. eapply Hlive; eauto.
      * rewrite list_lookup_alter_ne in H0 by done. eauto.
  - (* a stop event fires *)
    assert (rec_state rec = inactive) as Hin by eauto.
    repeat split.
    + intros r0 rec0 H0. rewrite length_alter. destruct (decide (r0 = r)) as [->|Hne].
      * rewrite list_lookup_alter_eq, Hr in H0. simplify_eq/=. eauto.
      * rewrite list_lookup_alter_ne in H0 by done. eauto.
    + intros r1 r2 rec1 rec2 H1 H2 Heq.
      assert (∃ old, rs !! r1 = Some old ∧ rec_stream old = rec_stream rec1) as (o1 & Ho1 & E1).
      { destruct (decide (r1 = r)) as [->|Hne].
        - rewrite list_lookup_alter_eq, Hr in H1. simplify_eq/=. eauto.
        - rewrite list_lookup_alter_ne in H1 by done. eauto. }
      assert (∃ old, rs !! r2 = Some old ∧ rec_stream old = rec_stream rec2) as (o2 & Ho2 & E2).
      { destruct (decide (r2 = r)) as [->|Hne].
        - rewrite list_lookup_alter_eq, Hr in H2. simplify_eq/=. eauto.
        - rewrite list_lookup_alter_ne in H2 by done. eauto. }
      eapply Hinj; eauto. congruence.
    + intros r0 rec0 H0 Hq0. destruct (decide (r0 = r)) as [->|Hne].
      * rewrite list_lookup_alter_eq, Hr in H0. by simplify_eq/=.
      * rewrite list_lookup_alter_ne in H0 by done. eauto.
    + intros s stream Hs. destruct (decide (s = rec_stream rec)) as [->|Hne].
      * rewrite list_lookup_alter_eq in Hs.
        destruct (ss !! rec_stream rec) as [old|] eqn:Hold; [|done]. simplify_eq/=.
        assert (Forall (λ n, n = 0) (releases old)) as H0 by (eapply Hlive; eauto).
        unfold releases in *. simpl. rewrite <- list_fmap_compose.
        rewrite Forall_fmap in H0 |- *. eapply Forall_impl; [exact H0|].
        simpl. intros t Ht. lia.
      * rewrite list_lookup_alter_ne in Hs by done. eauto.
    + intros r0 rec0 stream H0 Hact Hst. destruct (decide (r0 = r)) as [->|Hne].
      * rewrite list_lookup_alter_eq, Hr in H0. simplify_eq/=.
        destruct Hact as [Hact|Hact]; [congruence|done].
      * rewrite list_lookup_alter_ne in H0 by done.
        assert (rec_stream rec0 ≠ rec_stream rec) as Hd.
        { intros E. apply Hne. eapply Hinj; eauto. }
        rewrite list_lookup_alter_ne in Hst by done. eauto.
  - (* a stream without a recorder *)
    repeat split.
    + intros r0 rec0 H0. rewrite length_app. simpl. specialize (Hlt _ _ H0). lia.
    + done.
    + done.
    + intros s stream Hs. apply lookup_app_Some in Hs as [Hs|[_ Hs]]; [eauto|].
      apply list_lookup_singleton_Some in Hs as [_ <-].
      rewrite releases_newStream. apply Forall_replicate. lia.
    + intros r0 rec0 stream H0 Hact Hst.
      rewrite lookup_app_l in Hst by eauto. eauto.
  - (* a stream and a recorder on it *)
    repeat split.
    + intros r0 rec0 H0. rewrite length_app. simpl.
      apply lookup_app_Some in H0 as [H0|[_ H0]].
      * specialize (Hlt _ _ H0). lia.
      * apply list_lookup_singleton_Some in H0 as [_ <-]. simpl. lia.
    + intros r1 r2 rec1 rec2 H1 H2 Heq.
      apply lookup_app_Some in H1 as [H1|[L1 H1]];
        apply lookup_app_Some in H2 as [H2|[L2 H2]].
      * eauto.
      * apply list_lookup_singleton_Some in H2 as [_ <-]. simpl in Heq.
        specialize (Hlt _ _ H1). lia.
      * apply list_lookup_singleton_Some in H1 as [_ <-]. simpl in Heq.
        specialize (Hlt _ _ H2). lia.
      * apply list_lookup_singleton_Some in H1 as [E1 _].
        apply list_lookup_singleton_Some in H2 as [E2 _]. lia.
    + intros r0 rec0 H0 Hq0. apply lookup_app_Some in H0 as [H0|[_ H0]]; [eauto|].
      apply list_lookup_singleton_Some in H0 as [_ <-]. done.
    + intros s stream Hs. apply lookup_app_Some in Hs as [Hs|[_ Hs]]; [eauto|].
      apply list_lookup_singleton_Some in Hs as [_ <-].
      rewrite releases_newStream. apply Forall_replicate. lia.
    + intros r0 rec0 stream H0 Hact Hst.
      apply lookup_app_Some in H0 as [H0|[_ H0]].
      * rewrite lookup_app_l in Hst by eauto. eauto.
      * apply list_lookup_singleton_Some in H0 as [_ <-]. simpl in Hst.
        rewrite lookup_app_r in Hst by lia. rewrite Nat.sub_diag in Hst.
        simpl in Hst. simplify_eq. rewrite releases_newStream.
        apply Forall_replicate. done.
Qed.

Lemma consistent_run events : ∀ st,
  consistent (recorders st) (streams st) →
  consistent (recorders (run st events)) (streams (run st events)).
Proof.
  induction events as [|e events IH]; intros st H; [done|].
  apply (IH (step st e)). eapply consistent_change; [apply step_change|done].
Qed.

Lemma consistent_initial : consistent (recorders initial) (streams initial).
Proof. repeat split; intros; simplify_eq/=. Qed.

(** X12.  In every state the component can reach, whatever the order of the
    tasks, no track has been stopped more than once, and the tracks of a
    recorder that captures or has yet to fire [stop] have not been
    stopped. *)
Theorem tracks_stopped_at_most_once events :
  let st := run initial events in
  (∀ s stream, streams st !! s = Some stream → Forall (λ n, n ≤ 1) (releases stream))
  ∧ (∀ r rec,
       recorders st !! r = Some rec →
       rec_state rec = recording ∨ stopQueued rec = true →
       ∃ stream, streams st !! rec_stream rec = Some stream
               ∧ Forall (λ n, n = 0) (releases stream)).
Proof.
  intros st. destruct (consistent_run events initial consistent_initial)
    as (Hlt & _ & _ & Hle & Hlive).
  split; [exact Hle|]. intros r rec Hr Hact.
  destruct (lookup_lt_is_Some_2 (streams st) (rec_stream rec)) as [stream Hs]; [eauto|].
  eauto.
Qed.
End Consistency.

Section OneSession.
Import Js App Observe.

Lemma settled_control o now st :
  isListening (sendAudioForTranscription_settled o now st) = isListening st
  ∧ mediaRecorderRef (sendAudioForTranscription_settled o now st) = mediaRecorderRef st
  ∧ acquisitions (sendAudioForTranscription_settled o now st) = acquisitions st
  ∧ recorders (sendAudioForTranscription_settled o now st) = recorders st.
Proof.
  unfold sendAudioForTranscription_settled.
  destruct (transcriptionAttempt o now st) as [err|st'] eqn:E; [done|].
  by apply transcriptionAttempt_inr in E as (f & -> & _).
Qed.

Lemma unsettled_alter k a (l : list Acquisition) :
  l !! k = Some a →
  acq_settled a = false →
  S (length (filter (λ a, acq_settled a = false) (alter settleAcquisition k l)))
  = length (filter (λ a, acq_settled a = false) l).
Proof.
  revert k. induction l as [|x l IH]; intros k Hk Ha; [done|].
  destruct k as [|k]; simpl in Hk.
  - simplify_eq. simpl. rewrite !filter_cons. simpl.
    destruct (decide (true = false)) as [|_]; [done|].
    by destruct (decide (acq_settled a = false)).
  - change (alter settleAcquisition (S k) (x :: l))
      with (x :: alter settleAcquisition k l).
    rewrite !filter_cons. specialize (IH k Hk Ha).
    destruct (decide (acq_settled x = false)); simpl; lia.
Qed.

Lemma pendingAcquisition_Some st k a :
  pendingAcquisition st k = Some a →
  acquisitions st !! k = Some a ∧ acq_settled a = false.
Proof.
  unfold pendingAcquisition. destruct (acquisitions st !! k) as [x|]; [|done].
  destruct (acq_settled x) eqn:E; [done|]. by intros [= <-].
Qed.

Lemma pendingCalls_settle st k a :
  pendingAcquisition st k = Some a →
  S (pendingCalls (withAcquisitions (alter settleAcquisition k) st)) = pendingCalls st.
Proof.
  intros [H1 H2]%pendingAcquisition_Some. unfold pendingCalls. simpl.
  by apply unsettled_alter with a.
Qed.

Lemma oneSession_step st e :
  oneSession st →
  (e = Click → pendingCalls st = 0) →
  oneSession (step st e).
Proof.
  intros (Hp & Hl & Hr) Hc.
  destruct e as [v| |k n o|k err|r data|r|r|k o now]; simpl.
  - done.
  - specialize (Hc eq_refl). unfold handleToggleListen. simpl.
    destruct (isListening st) eqn:Hlis; simpl.
    + assert (∀ st', pendingCalls st' = pendingCalls st →
                (∀ r rec, recorders st' !! r = Some rec → rec_state rec ≠ recording) →
                oneSession (setIsListening false st')) as Hgo.
      { intros st' Hpc Hno. unfold oneSession. unfold pendingCalls in *. simpl.
        split; [lia|]. split; [done|]. intros r rec H1 H2. by apply Hno in H1. }
      destruct (mediaRecorderRef st) as [r|] eqn:Href; simpl.
      * destruct (recorders st !! r) as [rec|] eqn:Hrec; simpl.
        -- case_bool_decide as Hs; simpl.
           ++ apply Hgo; [done|]. simpl. intros r' rec' H1 H2.
              destruct (decide (r' = r)) as [->|Hne].
              ** rewrite list_lookup_alter_eq, Hrec in H1. by simplify_eq/=.
              ** rewrite list_lookup_alter_ne in H1 by done.
                 destruct (Hr _ _ H1 H2) as [_ E]. congruence.
           ++ apply Hgo; [done|]. simpl. intros r' rec' H1 H2.
              destruct (Hr _ _ H1 H2) as [_ E]. congruence.
        -- apply Hgo; [done|]. simpl. intros r' rec' H1 H2.
           destruct (Hr _ _ H1 H2) as [_ E]. congruence.
      * apply Hgo; [done|]. simpl. intros r' rec' H1 H2.
        destruct (Hr _ _ H1 H2) as [_ E]. congruence.
    + unfold oneSession, pendingCalls in *. simpl.
      rewrite filter_app, length_app. simpl.
      split; [lia|]. split; [done|]. intros r rec H1 H2.
      destruct (Hr _ _ H1 H2) as [E _]. congruence.
  - destruct (pendingAcquisition st k) as [a|] eqn:Hk; [|done].
    pose proof (pendingCalls_settle _ _ _ Hk) as Hs.
    assert (pendingCalls st = 1) as H1 by lia.
    assert (∀ r rec, recorders st !! r = Some rec → rec_state rec ≠ recording) as Hno.
    { intros r rec Hrec Hst. destruct (Hr _ _ Hrec Hst) as [E _].
      rewrite (Hl H1) in E. done. }
    unfold pendingCalls in *. simpl in Hs.
    destruct o as [|err|err]; unfold oneSession, pendingCalls; simpl.
    + split; [lia|]. split; [lia|]. intros r rec Hrec Hst.
      split; [done|]. rewrite alter_app_r_alt in Hrec by done.
      rewrite Nat.sub_diag in Hrec. simpl in Hrec.
      apply lookup_app_Some in Hrec as [Hrec|[Hge Hrec]].
      * by apply Hno in Hrec.
      * apply list_lookup_singleton_Some in Hrec as [E _]. f_equal. lia.
    + split; [lia|]. split; [done|]. intros r rec Hrec Hst. by apply Hno in Hrec.
    + split; [lia|]. split; [done|]. intros r rec Hrec Hst.
      apply lookup_app_Some in Hrec as [Hrec|[_ Hrec]].
      * by apply Hno in Hrec.
      * apply list_lookup_singleton_Some in Hrec as [_ <-]. done.
  - destruct (pendingAcquisition st k) as [a|] eqn:Hk; [|done].
    pose proof (pendingCalls_settle _ _ _ Hk) as Hs.
    assert (pendingCalls st = 1) as H1 by lia.
    unfold oneSession, pendingCalls in *. simpl in *.
    split; [lia|]. split; [done|]. intros r rec Hrec Hst.
    destruct (Hr _ _ Hrec Hst) as [E _]. rewrite (Hl H1) in E. done.
  - destruct (fires st r); [|done].
    unfold ondataavailable. by case_bool_decide.
  - destruct (recorders st !! r) as [rec|] eqn:Hrec; [|done].
    case_bool_decide as Hs; [|done].
    unfold oneSession, pendingCalls in *. simpl.
    split; [done|]. split; [done|]. intros r' rec' H1 H2.
    destruct (decide (r' = r)) as [->|Hne].
    + rewrite list_lookup_alter_eq, Hrec in H1. by simplify_eq/=.
    + rewrite list_lookup_alter_ne in H1 by done. eauto.
  - destruct (recorders st !! r) as [rec|] eqn:Hrec; [|done].
    destruct (stopQueued rec) eqn:Hq; [|done].
    unfold oneSession, pendingCalls in *. simpl.
    split; [done|]. split; [done|]. intros r' rec' H1 H2.
    destruct (decide (r' = r)) as [->|Hne].
    + rewrite list_lookup_alter_eq, Hrec in H1. simplify_eq/=. eauto.
    + rewrite list_lookup_alter_ne in H1 by done. eauto.
  - destruct (pendingFetch st k); [|done].
    destruct (settled_control o now (withFetches (alter settleFetch k) st))
      as (E1 & E2 & E3 & E4).
    unfold oneSession, pendingCalls. rewrite E1, E2, E3, E4. done.
Qed.

Lemma oneSession_run events : ∀ st,
  oneSession st → orderly st events = true → oneSession (run st events).
Proof.
  induction events as [|e events IH]; intros st H Ho; [done|].
  simpl in Ho. apply andb_true_iff in Ho as [Hc Ho].
  apply (IH (step st e)); [|done]. apply oneSession_step; [done|].
  intros ->. by apply bool_decide_eq_true_1 in Hc.
Qed.

Lemma oneSession_initial : oneSession initial.
Proof.
  unfold oneSession, pendingCalls. simpl. split; [lia|]. split; [lia|].
  intros r rec H. done.
Qed.

Lemma filter_none (rs : list MediaRecorder) :
  (∀ r rec, rs !! r = Some rec → rec_state rec ≠ recording) →
  filter (λ r, rec_state r = recording) rs = [].
Proof.
  induction rs as [|x rs IH]; intros H; [done|].
  rewrite filter_cons. destruct (decide (rec_state x = recording)) as [Hx|Hx].
  - by destruct (H 0 x).
  - apply IH. intros r rec Hr. apply (H (S r) rec Hr).
Qed.

Lemma at_most_one_at (rs : list MediaRecorder) : ∀ i,
  (∀ r rec, rs !! r = Some rec → rec_state rec = recording → r = i) →
  length (filter (λ r, rec_state r = recording) rs) ≤ 1.
Proof.
  induction rs as [|x rs IH]; intros i H; [simpl; lia|].
  rewrite filter_cons. destruct (decide (rec_state x = recording)) as [Hx|Hx].
  - assert (i = 0) as -> by (symmetry; by apply (H 0 x)).
    rewrite filter_none; [simpl; lia|].
    intros r rec Hr Hs. specialize (H (S r) rec Hr Hs). lia.
  - apply (IH (pred i)). intros r rec Hr Hs. specialize (H (S r) rec Hr Hs). lia.
Qed.

(** X13.  As long as the button is not pressed while a call of [getUserMedia]
    is pending, at most one recorder captures at any time; it is the one
    [mediaRecorderRef] holds, and the page shows the recording indicator
    and the [Stop Listening] button while it captures. *)
Theorem orderly_run_one_session events :
  orderly initial events = true →
  let st := run initial events in
  length (activeRecorders st) ≤ 1
  ∧ ∀ r rec,
      recorders st !! r = Some rec →
      rec_state rec = recording →
      mediaRecorderRef st = Some r
      ∧ Page.recordingIndicator (Page.render st) = true
      ∧ Page.buttonLabel (Page.render st) = "Stop Listening".
Proof.
  intros Ho st.
  destruct (oneSession_run events initial oneSession_initial Ho) as (_ & _ & Hr).
  fold st in Hr. split.
  - unfold activeRecorders. destruct (mediaRecorderRef st) as [i|] eqn:Href.
    + apply (at_most_one_at _ i). intros r rec H1 H2.
      destruct (Hr _ _ H1 H2) as [_ E]. congruence.
    + rewrite filter_none; [simpl; lia|]. intros r rec H1 H2.
      destruct (Hr _ _ H1 H2) as [_ E]. congruence.
  - intros r rec H1 H2. destruct (Hr _ _ H1 H2) as [E1 E2].
    split; [done|]. unfold Page.render. simpl. by rewrite E1.
Qed.
End OneSession.

Lemma orderly_run_one_session_witness :
  let events :=
    [App.Click; App.GetUserMediaResolved 0 1 App.Started;
     App.DataAvailable 0 (Samples.fragment "ab");
     App.Click; App.StopEvent 0;
     App.Click; App.GetUserMediaResolved 1 1 App.Started] in
  Observe.orderly App.initial events = true
  ∧ length (App.activeRecorders (App.run App.initial events)) ≤ 1.
Proof.
  intros events. split; [reflexivity|].
  exact (proj1 (orderly_run_one_session events eq_refl)).
Defined.

Section TranscriptGrowth.
Import Js App Observe.

Lemma string_app_empty_r (s : string) : s +:+ "" = s.
Proof.
  induction s as [|c s IH]; [done|].
  change (String c (s +:+ "") = String c s). by rewrite IH.
Qed.

Lemma settled_transcript o now st :
  transcribedText (sendAudioForTranscription_settled o now st) = transcribedText st
  ∨ (∃ status result, o = Answered status (inr result) ∧ ok status = true)
    ∧ ∃ suffix,
        transcribedText (sendAudioForTranscription_settled o now st)
        = transcribedText st +:+ suffix.
Proof.
  unfold sendAudioForTranscription_settled.
  destruct (transcriptionAttempt o now st) as [err|st'] eqn:E; [by left|].
  right. split.
  - unfold transcriptionAttempt in E.
    destruct o as [err|status [err|result]]; try discriminate E.
    destruct (ok status) eqn:Hok; simpl in E; [by eauto|].
    destruct (getProp result "error") as [err|error]; [discriminate E|].
    destruct (truthy error); [discriminate E|].
    destruct (getProp result "details"); discriminate E.
  - apply transcriptionAttempt_inr in E as (f & -> & Hf). simpl. apply Hf.
Qed.

(** Only the settling of a pending request with a 2xx answer changes the
    transcript, and it changes it by adding text at its end. *)
Lemma step_transcript st e :
  (∃ suffix, transcribedText (step st e) = transcribedText st +:+ suffix)
  ∧ (transcribedText (step st e) ≠ transcribedText st →
     ∃ k status result now,
       e = FetchSettled k (Answered status (inr result)) now
       ∧ ok status = true ∧ is_Some (pendingFetch st k)).
Proof.
  assert (∀ st', transcribedText st' = transcribedText st →
            (∃ suffix, transcribedText st' = transcribedText st +:+ suffix)
            ∧ (transcribedText st' ≠ transcribedText st →
               ∃ k status result now,
                 e = FetchSettled k (Answered status (inr result)) now
                 ∧ ok status = true ∧ is_Some (pendingFetch st k))) as Hsame.
  { intros st' ->. split; [|done]. exists "". by rewrite string_app_empty_r. }
  destruct e as [v| |k n o|k err|r data|r|r|k o now]; simpl.
  - by apply Hsame.
  - apply Hsame. unfold handleToggleListen. simpl.
    destruct (isListening st); simpl; [|done].
    destruct (mediaRecorderRef st) as [r|]; simpl; [|done].
    destruct (recorders st !! r); simpl; [|done].
    by case_bool_decide.
  - apply Hsame. destruct (pendingAcquisition st k); [|done]. by destruct o.
  - apply Hsame. by destruct (pendingAcquisition st k).
  - apply Hsame. destruct (fires st r); [|done].
    unfold ondataavailable. by case_bool_decide.
  - apply Hsame. destruct (recorders st !! r); [|done]. by case_bool_decide.
  - apply Hsame. destruct (recorders st !! r) as [rec|]; [|done].
    by destruct (stopQueued rec).
  - destruct (pendingFetch st k) as [c|] eqn:Hk; [|by apply Hsame].
    destruct (settled_transcript o now (withFetches (alter settleFetch k) st))
      as [H|[(status & result & -> & Hok) H]].
    + by apply Hsame.
    + split; [exact H|]. intros _. eauto 8.
Qed.

(** X14.  The transcript is never cut or rewritten: after any run it is the
    transcript before, followed by what was added; and a task that
    changes it is a 2xx answer to a pending request. *)
Theorem transcript_only_grows st events :
  (∃ suffix, transcribedText (run st events) = transcribedText st +:+ suffix)
  ∧ ∀ e, transcribedText (step st e) ≠ transcribedText st →
      ∃ k status result now,
        e = FetchSettled k (Answered status (inr result)) now
        ∧ ok status = true ∧ is_Some (pendingFetch st k).
Proof.
  split; [|intros e; apply step_transcript].
  revert st. induction events as [|e events IH]; intros st.
  - exists "". simpl. by rewrite string_app_empty_r.
  - change (run st (e :: events)) with (run (step st e) events).
    destruct (IH (step st e)) as [s2 ->].
    destruct (proj1 (step_transcript st e)) as [s1 ->].
    exists (s1 +:+ s2). by rewrite string_app_assoc.
Qed.
End TranscriptGrowth.

Section Requests.
Import Js App Observe.

Lemma settled_fetches o now st :
  fetches (sendAudioForTranscription_settled o now st) = fetches st.
Proof.
  unfold sendAudioForTranscription_settled.
  destruct (transcriptionAttempt o now st) as [err|st'] eqn:E; [done|].
  by apply transcriptionAttempt_inr in E as (f & -> & _).
Qed.

Lemma sent_is_recordingRequest token chunks st :
  ∃ call,
    fetches (sendAudioForTranscription token (recordedFile chunks) st) = fetches st ++ [call]
    ∧ fetch_settled call = false
    ∧ recordingRequest (fetch_request call)
    ∧ uploadedAudio (fetch_request call) = Some (recordedFile chunks)
    ∧ tokenField (fetch_request call) =
        if bool_decide (token ≠ "") then Some token else None.
Proof.
  rewrite recordedFile_bytes.
  unfold sendAudioForTranscription. simpl. eexists. split; [done|]. simpl.
  split; [done|].
  case_bool_decide; simpl; repeat split; eauto.
Qed.

(** How a task changes the list of requests: a [stop] event that fires
    adds one request of the recording; the settling of a pending request
    marks it; nothing else touches the list. *)
Lemma step_fetches st e :
  (∃ r rec call,
     e = StopEvent r ∧ recorders st !! r = Some rec ∧ stopQueued rec = true
     ∧ fetches (step st e) = fetches st ++ [call]
     ∧ recordingRequest (fetch_request call)
     ∧ stopsFired st [e] = 1)
  ∨ ((fetches (step st e) = fetches st
      ∨ ∃ k, fetches (step st e) = alter settleFetch k (fetches st))
     ∧ stopsFired st [e] = 0).
Proof.
  destruct e as [v| |k n o|k err|r data|r|r|k o now]; simpl.
  - right. eauto.
  - right. split; [|done]. left. unfold handleToggleListen. simpl.
    destruct (isListening st); simpl; [|done].
    destruct (mediaRecorderRef st) as [r|]; simpl; [|done].
    destruct (recorders st !! r); simpl; [|done].
    by case_bool_decide.
  - right. split; [|done]. left. destruct (pendingAcquisition st k); [|done]. by destruct o.
  - right. split; [|done]. left. by destruct (pendingAcquisition st k).
  - right. split; [|done]. left. destruct (fires st r); [|done].
    unfold ondataavailable. by case_bool_decide.
  - right. split; [|done]. left. destruct (recorders st !! r); [|done]. by case_bool_decide.
  - destruct (recorders st !! r) as [rec|] eqn:Hr; [|right; eauto].
    destruct (stopQueued rec) eqn:Hq; [|right; eauto].
    left. unfold onstop.
    destruct (sent_is_recordingRequest (rec_token rec) (audioChunksRef st)
                (withRecorders (alter clearStopQueued r) st))
      as (call & Hf & _ & Hw & _).
    exists r, rec, call. simpl in *. rewrite Hf. done.
  - right. split; [|done]. destruct (pendingFetch st k); [|by left].
    rewrite settled_fetches. simpl. eauto.
Qed.

Lemma stopsFired_cons st e events :
  stopsFired st (e :: events) = stopsFired st [e] + stopsFired (step st e) events.
Proof. simpl. lia. Qed.

Lemma requests_run events : ∀ st,
  Forall (λ c, recordingRequest (fetch_request c)) (fetches st) →
  Forall (λ c, recordingRequest (fetch_request c)) (fetches (run st events))
  ∧ length (fetches (run st events)) = length (fetches st) + stopsFired st events.
Proof.
  induction events as [|e events IH]; intros st H.
  - simpl. split; [done|lia].
  - change (run st (e :: events)) with (run (step st e) events).
    rewrite stopsFired_cons.
    destruct (step_fetches st e)
      as [(r & rec & call & _ & _ & _ & Hf & Hw & Hn)|[[Hf|[k Hf]] Hn]].
    + destruct (IH (step st e)) as [H1 H2].
      { rewrite Hf. apply Forall_app. split; [done|]. by constructor. }
      split; [done|]. rewrite H2, Hf, length_app, Hn. simpl. lia.
    + destruct (IH (step st e)) as [H1 H2]; [by rewrite Hf|].
      split; [done|]. rewrite H2, Hf, Hn. lia.
    + destruct (IH (step st e)) as [H1 H2].
      { rewrite Hf. apply Forall_alter; [done|]. intros c _. by destruct c. }
      split; [done|]. rewrite H2, Hf, length_alter, Hn. lia.
Qed.

(** X15.  The component sends one request for each [stop] event that fires and
    no other; every request it has sent is a POST to [/api/transcribe]
    whose first field is the file [recording.webm] of type [audio/webm]. *)
Theorem one_request_per_stop_event events :
  let st := run initial events in
  length (fetches st) = stopsFired initial events
  ∧ Forall (λ c, recordingRequest (fetch_request c)) (fetches st).
Proof.
  intros st. destruct (requests_run events initial) as [H1 H2]; [by constructor|].
  split; [exact H2|exact H1].
Qed.
End Requests.

Section Tokens.
Import Js App Observe.

Lemma change_keeps_recorder rs ss rs' ss' r rec :
  Change rs ss rs' ss' →
  rs !! r = Some rec →
  ∃ rec', rs' !! r = Some rec'
        ∧ rec_token rec' = rec_token rec ∧ rec_stream rec' = rec_stream rec.
Proof.
  intros Hch Hr. destruct Hch as [|r0 rec0 H0 Hs|r0 rec0 H0 Hq|n|n token started].
  - eauto.
  - destruct (decide (r = r0)) as [->|Hne].
    + rewrite list_lookup_alter_eq, Hr. simpl. eauto.
    + rewrite list_lookup_alter_ne by done. eauto.
  - destruct (decide (r = r0)) as [->|Hne].
    + rewrite list_lookup_alter_eq, Hr. simpl. eauto.
    + rewrite list_lookup_alter_ne by done. eauto.
  - eauto.
  - rewrite lookup_app_l by (by eapply lookup_lt_Some). eauto.
Qed.

Lemma run_keeps_recorder events : ∀ st r rec,
  recorders st !! r = Some rec →
  ∃ rec', recorders (run st events) !! r = Some rec'
        ∧ rec_token rec' = rec_token rec ∧ rec_stream rec' = rec_stream rec.
Proof.
  induction events as [|e events IH]; intros st r rec Hr; [eauto|].
  destruct (change_keeps_recorder _ _ _ _ _ _ (step_change st e) Hr) as (rec1 & H1 & T1 & S1).
  destruct (IH (step st e) r rec1 H1) as (rec2 & H2 & T2 & S2).
  exists rec2. split; [done|]. split; congruence.
Qed.

Lemma settled_acquisitions o now st :
  acquisitions (sendAudioForTranscription_settled o now st) = acquisitions st.
Proof. by destruct (settled_control o now st) as (_ & _ & -> & _). Qed.

Lemma alter_keeps_acquisition k0 k a (l : list Acquisition) :
  l !! k = Some a →
  ∃ a', alter settleAcquisition k0 l !! k = Some a' ∧ acq_token a' = acq_token a.
Proof.
  intros H. destruct (decide (k = k0)) as [->|Hne].
  - rewrite list_lookup_alter_eq, H. simpl. eauto.
  - rewrite list_lookup_alter_ne by done. eauto.
Qed.

Lemma step_keeps_acquisition st e k a :
  acquisitions st !! k = Some a →
  ∃ a', acquisitions (step st e) !! k = Some a' ∧ acq_token a' = acq_token a.
Proof.
  intros H. destruct e as [v| |k0 n o|k0 err|r data|r|r|k0 o now]; simpl.
  - eauto.
  - unfold handleToggleListen. simpl.
    destruct (isListening st); simpl.
    + destruct (mediaRecorderRef st) as [r|]; simpl; [|eauto].
      destruct (recorders st !! r); simpl; [|eauto].
      case_bool_decide; simpl; eauto.
    + rewrite lookup_app_l by (by eapply lookup_lt_Some). eauto.
  - destruct (pendingAcquisition st k0); [|eauto].
    destruct o; simpl; by apply alter_keeps_acquisition.
  - destruct (pendingAcquisition st k0); [|eauto]. simpl.
    by apply alter_keeps_acquisition.
  - destruct (fires st r); [|eauto].
    unfold ondataavailable. case_bool_decide; simpl; eauto.
  - destruct (recorders st !! r); [|eauto]. case_bool_decide; simpl; eauto.
  - destruct (recorders st !! r) as [rec|]; [|eauto].
    destruct (stopQueued rec); simpl; eauto.
  - destruct (pendingFetch st k0); [|eauto].
    rewrite settled_acquisitions. simpl. eauto.
Qed.

Lemma run_keeps_acquisition events : ∀ st k a,
  acquisitions st !! k = Some a →
  ∃ a', acquisitions (run st events) !! k = Some a' ∧ acq_token a' = acq_token a.
Proof.
  induction events as [|e events IH]; intros st k a H; [eauto|].
  destruct (step_keeps_acquisition st e k a H) as (a1 & H1 & T1).
  destruct (IH (step st e) k a1 H1) as (a2 & H2 & T2).
  exists a2. split; [done|]. congruence.
Qed.

(** X16.  The credential a recording is sent with is the one in the token field
    when the button was pressed to start it: what is typed into the field
    afterwards, while the microphone is acquired or while recording, does
    not reach that request.  It is sent only when it is not empty. *)
Theorem request_carries_token_of_the_press st0 pre n post rec :
  isListening st0 = false →
  let k := length (acquisitions st0) in
  let st1 := run (step st0 Click) pre in
  let r := length (recorders st1) in
  let st2 := run (step st1 (GetUserMediaResolved k n Started)) post in
  is_Some (pendingAcquisition st1 k) →
  recorders st2 !! r = Some rec →
  stopQueued rec = true →
  ∃ call,
    fetches (step st2 (StopEvent r)) = fetches st2 ++ [call]
    ∧ tokenField (fetch_request call) =
        if bool_decide (geminiApiToken st0 ≠ "") then Some (geminiApiToken st0) else None.
Proof.
  intros Hl k st1 r st2 [a Ha] Hrec Hq.
  assert (acq_token a = geminiApiToken st0) as Htok.
  { apply pendingAcquisition_Some in Ha as [Ha _].
    assert (acquisitions (step st0 Click) !! k
            = Some {| acq_token := geminiApiToken st0; acq_settled := false |}) as H0.
    { simpl. unfold handleToggleListen. simpl. rewrite Hl. simpl.
      subst k. rewrite lookup_app_r by lia. by rewrite Nat.sub_diag. }
    destruct (run_keeps_acquisition pre _ _ _ H0) as (a' & H1 & T1).
    unfold st1 in Ha. simpl in T1. congruence. }
  assert (rec_token rec = geminiApiToken st0) as Hrt.
  { assert (∃ rec0, recorders (step st1 (GetUserMediaResolved k n Started)) !! r = Some rec0
                  ∧ rec_token rec0 = acq_token a) as (rec0 & H0 & T0).
    { simpl. rewrite Ha. simpl. rewrite alter_snoc.
      subst r. rewrite lookup_app_r by lia. rewrite Nat.sub_diag. simpl. eauto. }
    destruct (run_keeps_recorder post _ _ _ H0) as (rec' & H1 & T1 & _).
    unfold st2 in Hrec. congruence. }
  rewrite (step_StopEvent _ _ _ Hrec Hq). unfold onstop.
  destruct (sent_is_recordingRequest (rec_token rec) (audioChunksRef
              (withRecorders (alter clearStopQueued r) st2))
              (withRecorders (alter clearStopQueued r) st2))
    as (call & Hf & _ & _ & _ & Ht).
  exists call. simpl in *. rewrite Hf. split; [done|]. by rewrite Ht, Hrt.
Qed.
End Tokens.

Lemma request_carries_token_of_the_press_witness :
  let st0 := App.step App.initial (App.TokenInput "key-1") in
  let pre := [App.TokenInput "key-2"] in
  let post := [App.TokenInput ""; App.Click] in
  let st1 := App.run (App.step st0 App.Click) pre in
  let st2 := App.run (App.step st1 (App.GetUserMediaResolved 0 1 App.Started)) post in
  App.isListening st0 = false
  ∧ App.geminiApiToken st2 = ""
  ∧ ∃ call,
      App.fetches (App.step st2 (App.StopEvent 0)) = App.fetches st2 ++ [call]
      ∧ Observe.tokenField (App.fetch_request call) = Some "key-1".
Proof.
  intros st0 pre post st1 st2. split; [reflexivity|]. split; [reflexivity|].
  destruct (App.recorders st2 !! 0) as [rec|] eqn:Hrec; [|vm_compute in Hrec; discriminate].
  assert (App.stopQueued rec = true) as Hq.
  { vm_compute in Hrec. injection Hrec as <-. reflexivity. }
  exact (request_carries_token_of_the_press st0 pre 1 post rec eq_refl
           (ex_intro _ _ eq_refl) Hrec Hq).
Defined.

(* ===================================================================== *)
(** ** The client and the gateway together *)
(* ===================================================================== *)

Section EndToEnd.
Import Js Gateway.
Variable sdk : Sdk.
Variable srv : Server.

Ltac among := unfold Observe.errorTexts; rewrite !elem_of_cons; tauto.

Ltac error_answer :=
  intros [= <-]; right; (split; [first [by left|by right]|]); eexists _, _;
  (split; [done|]); (split; [done|]); among.

Lemma transcribe_answer m audio r :
  outcome (transcribe sdk m audio) = inr r →
  (status r = 200 ∧ ∃ text, body r = JObject [("transcription", JString text)])
  ∨ ((status r = 400 ∨ status r = 500)
     ∧ ∃ members message,
         body r = JObject members
         ∧ lookup_member "error" members = Some (JString message)
         ∧ message ∈ Observe.errorTexts).
Proof.
  unfold transcribe, outcome. destruct audio as [[s|file]|]; simpl.
  3:{ error_answer. }
  { case_bool_decide; simpl; error_answer. }
  destruct (arrayBuffer file) as [t|bytes]; simpl.
  { error_answer. }
  destruct (sdk_generateContent sdk m _) as [t|res]; simpl.
  { error_answer. }
  destruct (response_text res) as [t|text]; simpl.
  { error_answer. }
  intros [= <-]. left. eauto.
Qed.

Lemma resolved_reply token r0 :
  outcome (resolveCredential sdk srv (FormString <$> token)) = inr (Reply r0) →
  (status r0 = 400 ∨ status r0 = 500)
  ∧ ∃ members message,
      body r0 = JObject members
      ∧ lookup_member "error" members = Some (JString message)
      ∧ message ∈ Observe.errorTexts.
Proof.
  destruct (Spec.credentialOffered token) eqn:C.
  - destruct token as [t|]; [|done]. simpl in C. apply negb_true_iff in C.
    cbn [fmap option_fmap option_map]. rewrite (resolve_offered sdk srv _ C).
    destruct (sdk_new sdk t) as [e|]; simpl.
    { intros [= <-]. split; [first [by left|by right]|].
      destruct e; eexists _, _; (split; [done|]; split; [done|]); among. }
    destruct (sdk_getGenerativeModel sdk _ _) as [e|]; simpl; [|done].
    intros [= <-]. split; [first [by left|by right]|].
    destruct e; eexists _, _; (split; [done|]; split; [done|]); among.
  - rewrite (resolve_unoffered sdk srv _ C).
    destruct (genAI srv), (model srv); simpl; try done;
      intros [= <-]; (split; [first [by left|by right]|]); eexists _, _;
      (split; [done|]; split; [done|]); among.
Qed.

Lemma POST_answer fd r :
  outcome (POST sdk srv {| formData := inr fd |}) = inr r →
  (status r = 200 ∧ ∃ text, body r = JObject [("transcription", JString text)])
  ∨ ((status r = 400 ∨ status r = 500)
     ∧ ∃ members message,
         body r = JObject members
         ∧ lookup_member "error" members = Some (JString message)
         ∧ message ∈ Observe.errorTexts).
Proof.
  destruct (outcome (resolveCredential sdk srv (gemini_api_token fd)))
    as [t|res] eqn:Hres.
  { by rewrite (POST_faulted _ _ _ _ Hres). }
  rewrite (POST_resolved _ _ _ _ Hres).
  destruct res as [m|r0]; [apply transcribe_answer|].
  simpl. intros [= <-]. right.
  destruct (gemini_api_token fd) as [[t|f]|]; [|done|].
  - by apply (resolved_reply (Some t)).
  - by apply (resolved_reply None).
Qed.

(** X17.  An error answer of the handler reaches the user as the text of its
    [error] member behind [Error: ]; the [details] are not shown, and the
    transcript stays as it was. *)
Theorem server_error_reaches_user fd r st k c now :
  outcome (POST sdk srv {| formData := inr fd |}) = inr r →
  status r ≠ 200 →
  App.pendingFetch st k = Some c →
  let st' := App.step st (App.FetchSettled k (Wire.delivered r) now) in
  ∃ message,
    getProp (body r) "error" = inr (Some (JString message))
    ∧ message ∈ Observe.errorTexts
    ∧ App.errorText st' = "Error: " +:+ message
    ∧ Page.errorLine (Page.render st') = Some ("Error: " +:+ message)
    ∧ App.transcribedText st' = App.transcribedText st.
Proof.
  intros Hr Hs Hk st'. subst st'.
  destruct (POST_answer _ _ Hr) as [[E _]|(Hst & members & message & Hb & Hm & Hin)];
    [done|].
  assert (App.ok (status r) = false) as Hok by (by destruct Hst as [-> | ->]).
  exists message. rewrite (step_FetchSettled _ _ _ _ _ Hk).
  unfold Wire.delivered, App.sendAudioForTranscription_settled, App.transcriptionAttempt.
  rewrite Hok, Hb. simpl. rewrite Hm.
  assert (message ≠ "") as Hne.
  { intros ->. revert Hin. unfold Observe.errorTexts. rewrite !elem_of_cons, elem_of_nil.
    intros [?|[?|[?|[?|[]]]]]; discriminate. }
  assert (truthy (Some (JString message)) = true) as Ht
    by (simpl; by apply bool_decide_eq_true_2).
  rewrite Ht. simpl.
  split; [done|]. split; [done|]. split; [done|]. split; [|done].
  unfold App.shownError. simpl. done.
Qed.

Lemma received_sent token chunks st call :
  App.fetches (App.sendAudioForTranscription token (App.recordedFile chunks) st)
  = App.fetches st ++ [call] →
  Wire.received (App.request_body (App.fetch_request call)) =
    {| audio_file := Some (FormFile (Wire.uploaded (App.recordedFile chunks)));
       gemini_api_token :=
         if bool_decide (token ≠ "") then Some (FormString token) else None |}.
Proof.
  rewrite recordedFile_bytes. unfold App.sendAudioForTranscription. simpl.
  intros H. apply app_inj_tail in H as [_ <-]. simpl.
  by case_bool_decide.
Qed.

(** X18.  One recording from the [stop] event to the page.  The handler finds
    the recording in the request the client sent, so it never answers
    that the audio is missing; it resolves the credential the recorder
    holds, sends the service the buffered bytes, and when the service
    answers with a text, the client adds [[time] text] to the transcript,
    or leaves the transcript alone when the text is empty. *)
Theorem recording_transcribed st r rec m text now :
  App.recorders st !! r = Some rec →
  App.stopQueued rec = true →
  let token :=
    if bool_decide (App.rec_token rec ≠ "")
    then Some (FormString (App.rec_token rec)) else None in
  let audio := mjoin (App.blob_bytes <$> App.audioChunksRef st) in
  outcome (resolveCredential sdk srv token) = inr (Use m) →
  sdk_generateContent sdk m (Observe.transcriptionRequest audio)
  = inr {| response_text := inr text |} →
  let sent := App.step st (App.StopEvent r) in
  let k := length (App.fetches st) in
  let answer := App.Answered 200 (inr (JObject [("transcription", JString text)])) in
  ∃ call fd,
    App.pendingFetch sent k = Some call
    ∧ Wire.received (App.request_body (App.fetch_request call)) = fd
    ∧ audio_file fd
      = Some (FormFile (Wire.uploaded (App.recordedFile (App.audioChunksRef st))))
    ∧ gemini_api_token fd = token
    ∧ effects (POST sdk srv {| formData := inr fd |})
      = [GenerateContent m (Observe.transcriptionRequest audio)]
    ∧ Wire.served sdk srv (App.fetch_request call) = Some answer
    ∧ App.transcribedText (App.step sent (App.FetchSettled k answer now)) =
        if bool_decide (text = "") then App.transcribedText st
        else if bool_decide (App.transcribedText st ≠ "")
             then App.transcribedText st +:+ App.newline +:+ "[" +:+ now +:+ "] " +:+ text
             else "[" +:+ now +:+ "] " +:+ text.
Proof.
  intros Hrec Hq token audio Hres Hgen sent k answer.
  destruct (sent_is_recordingRequest (App.rec_token rec) (App.audioChunksRef st)
              (App.withRecorders (alter App.clearStopQueued r) st))
    as (call & Hf & Hset & _ & _ & _).
  assert (App.fetches sent = App.fetches st ++ [call]) as Hsent.
  { subst sent. rewrite (step_StopEvent _ _ _ Hrec Hq). unfold App.onstop.
    simpl in *. by rewrite Hf. }
  assert (App.pendingFetch sent k = Some call) as Hk.
  { unfold App.pendingFetch. rewrite Hsent. subst k.
    rewrite lookup_app_r by lia. rewrite Nat.sub_diag. simpl. by rewrite Hset. }
  pose proof (received_sent _ _ _ _ Hf) as Hrcv. simpl in Hrcv.
  set (fd := {| audio_file :=
                  Some (FormFile (Wire.uploaded (App.recordedFile (App.audioChunksRef st))));
                gemini_api_token := token |}).
  fold token in Hrcv. fold fd in Hrcv.
  assert (POST sdk srv {| formData := inr fd |}
          = transcribe sdk m
              (Some (FormFile (Wire.uploaded (App.recordedFile (App.audioChunksRef st))))))
    as HP by (by rewrite (POST_resolved sdk srv fd _ Hres)).
  assert (arrayBuffer (Wire.uploaded (App.recordedFile (App.audioChunksRef st))) = inr audio)
    as Hbytes by (by rewrite recordedFile_bytes).
  exists call, fd. split; [done|]. split; [done|]. split; [done|]. split; [done|]. split.
  { rewrite HP, transcribe_effects. by rewrite Hbytes. }
  split.
  { unfold Wire.served. rewrite Hrcv, HP. unfold transcribe, outcome.
    rewrite Hbytes. simpl. fold (Observe.transcriptionRequest audio).
    by rewrite Hgen. }
  rewrite (step_FetchSettled _ _ _ _ _ Hk). subst answer.
  unfold App.sendAudioForTranscription_settled.
  rewrite (attempt_accepts _ 200 (JObject [("transcription", JString text)])
             (Some (JString text)) now eq_refl eq_refl).
  assert (App.transcribedText sent = App.transcribedText st) as Hsame.
  { subst sent. by rewrite (step_StopEvent _ _ _ Hrec Hq). }
  destruct (decide (text = "")) as [->|Hne].
  - rewrite acceptTranscription_falsy by done. simpl. done.
  - rewrite acceptTranscription_text by done. simpl.
    rewrite (bool_decide_eq_false_2 (text = "")) by done. by rewrite Hsame.
Qed.

(** X1.  Once the body of a request is parsed, the handler answers unless
    the token field holds a file: it answers 200 with the text under
    [transcription], or 400 or 500 with an object whose [error] is one of
    the four texts of the source.  With a file in the token field line 47
    throws outside both [try] blocks: the handler answers nothing and
    calls nothing. *)
Theorem parsed_request_answered_unless_file_token fd :
  let run := POST sdk srv {| formData := inr fd |} in
  match gemini_api_token fd with
  | Some (FormFile _) => run = ([], inl (ErrorObj trimMissingMessage))
  | _ =>
      ∃ r, outcome run = inr r
         ∧ ((status r = 200 ∧ ∃ text, body r = JObject [("transcription", JString text)])
            ∨ ((status r = 400 ∨ status r = 500)
               ∧ ∃ members message,
                   body r = JObject members
                   ∧ lookup_member "error" members = Some (JString message)
                   ∧ message ∈ Observe.errorTexts))
  end.
Proof.
  intros run. subst run. destruct fd as [audio [[t|f]|]]; cbn [gemini_api_token].
  - destruct (parsed_body_answered sdk srv audio (Some t)) as (r & Hr & _).
    exists r. split; [done|]. by apply (POST_answer _ _ Hr).
  - reflexivity.
  - destruct (parsed_body_answered sdk srv audio None) as (r & Hr & _).
    exists r. split; [done|]. by apply (POST_answer _ _ Hr).
Qed.
End EndToEnd.

Lemma recording_transcribed_witness :
  let st := App.run App.initial
    [App.Click; App.GetUserMediaResolved 0 1 App.Started;
     App.DataAvailable 0 (Samples.fragment "ab");
     App.DataAvailable 0 (Samples.fragment "cd"); App.Click] in
  let sent := App.step st (App.StopEvent 0) in
  let answer :=
    App.Answered 200 (inr (Js.JObject [("transcription", Js.JString "hi there")])) in
  App.audioChunksRef st = [Samples.fragment "ab"; Samples.fragment "cd"]
  ∧ App.transcribedText (App.step sent (App.FetchSettled 0 answer "10:00:00"))
    = "[10:00:00] hi there".
Proof.
  intros st sent answer. split; [reflexivity|].
  destruct (App.recorders st !! 0) as [rec|] eqn:Hrec; [|vm_compute in Hrec; discriminate].
  assert (rec = {| App.rec_state := App.inactive; App.rec_stream := 0;
                   App.rec_token := ""; App.stopQueued := true |}) as ->.
  { vm_compute in Hrec. by injection Hrec as <-. }
  destruct (recording_transcribed (Samples.quietSdk "hi there")
              {| Gateway.genAI := Some {| Gateway.apiKey := "server-key" |};
                 Gateway.model := Some (Gateway.freshModel "server-key") |}
              st 0 _ (Gateway.freshModel "server-key") "hi there" "10:00:00"
              Hrec eq_refl eq_refl eq_refl)
    as (call & fd & _ & _ & _ & _ & _ & _ & H).
  exact H.
Defined.

Lemma upload_metadata_ignored_witness :
  let webm := {| Gateway.file_name := "recording.webm"; Gateway.file_type := "audio/webm";
                 Gateway.arrayBuffer := inr (String.list_byte_of_string "abc") |} in
  let mp4 := {| Gateway.file_name := "clip.mp4"; Gateway.file_type := "audio/mp4";
                Gateway.arrayBuffer := inr (String.list_byte_of_string "abc") |} in
  Gateway.POST (Samples.quietSdk "hi") Samples.noDefault
    {| Gateway.formData :=
         inr {| Gateway.audio_file := Some (Gateway.FormFile webm);
                Gateway.gemini_api_token := Some (Gateway.FormString "key") |} |}
  = Gateway.POST (Samples.quietSdk "hi") Samples.noDefault
    {| Gateway.formData :=
         inr {| Gateway.audio_file := Some (Gateway.FormFile mp4);
                Gateway.gemini_api_token := Some (Gateway.FormString "key") |} |}.
Proof.
  intros webm mp4.
  exact (upload_metadata_ignored (Samples.quietSdk "hi") Samples.noDefault
           (Some (Gateway.FormString "key")) webm mp4 eq_refl).
Defined.

Lemma offered_token_ignores_default_witness :
  let keyed := {| Gateway.genAI := Some {| Gateway.apiKey := "server-key" |};
                  Gateway.model := Some (Gateway.freshModel "server-key") |} in
  Spec.blank "key" = false
  ∧ Gateway.POST (Samples.quietSdk "hi") keyed
      {| Gateway.formData :=
           inr {| Gateway.audio_file := None;
                  Gateway.gemini_api_token := Some (Gateway.FormString "key") |} |}
    = Gateway.POST (Samples.quietSdk "hi") Samples.noDefault
      {| Gateway.formData :=
           inr {| Gateway.audio_file := None;
                  Gateway.gemini_api_token := Some (Gateway.FormString "key") |} |}.
Proof.
  intros keyed. split; [reflexivity|].
  exact (offered_token_ignores_default (Samples.quietSdk "hi") keyed Samples.noDefault
           None "key" eq_refl).
Defined.

Lemma keyless_server_needs_token_witness :
  ∃ srv,
    Gateway.startServer (Samples.quietSdk "hi") (Some "") = ([], inr srv)
    ∧ Gateway.effects
        (Gateway.POST (Samples.quietSdk "hi") srv
           {| Gateway.formData :=
                inr {| Gateway.audio_file := None;
                       Gateway.gemini_api_token := Some (Gateway.FormString " ") |} |})
      = [].
Proof.
  destruct (keyless_server_needs_token (Samples.quietSdk "hi") (Some "")
              None (Some " ") (or_intror eq_refl) eq_refl) as (srv & H1 & H2).
  exists srv. split; [exact H1|].
  change (Some (Gateway.FormString " ")) with (Gateway.FormString <$> Some " ").
  rewrite H2. reflexivity.
Defined.

Lemma keyed_server_serves_with_key_witness :
  ∃ srv,
    Gateway.startServer (Samples.quietSdk "hi") (Some "server-key") = ([], inr srv)
    ∧ Gateway.POST (Samples.quietSdk "hi") srv
        {| Gateway.formData := inr {| Gateway.audio_file := None;
                                      Gateway.gemini_api_token := None |} |}
      = Gateway.transcribe (Samples.quietSdk "hi") (Gateway.freshModel "server-key") None.
Proof.
  exact (keyed_server_serves_with_key (Samples.quietSdk "hi") "server-key"
           None None ltac:(discriminate) eq_refl eq_refl eq_refl).
Defined.

Lemma service_result_relayed_witness :
  let file := {| Gateway.file_name := "recording.webm"; Gateway.file_type := "audio/webm";
                 Gateway.arrayBuffer := inr (String.list_byte_of_string "abc") |} in
  let fd := {| Gateway.audio_file := Some (Gateway.FormFile file);
               Gateway.gemini_api_token := Some (Gateway.FormString "key") |} in
  Gateway.outcome (Gateway.POST (Samples.quietSdk "") Samples.noDefault
                     {| Gateway.formData := inr fd |})
  = inr {| Gateway.status := 200;
           Gateway.body := Js.JObject [("transcription", Js.JString "")] |}.
Proof.
  intros file fd.
  exact (service_result_relayed (Samples.quietSdk "") Samples.noDefault fd
           (Gateway.freshModel "key") file (String.list_byte_of_string "abc")
           eq_refl eq_refl eq_refl).
Defined.

Lemma server_error_reaches_user_witness :
  let st := App.run App.initial
    [App.Click; App.GetUserMediaResolved 0 1 App.Started; App.Click; App.StopEvent 0] in
  let fd := {| Gateway.audio_file := None; Gateway.gemini_api_token := None |} in
  let r := {| Gateway.status := 500;
              Gateway.body := Js.JObject [("error", Js.JString
     "API token is required. Configure it on the server or provide it in the request.")] |} in
  ∃ message,
    Js.getProp (Gateway.body r) "error" = inr (Some (Js.JString message))
    ∧ App.errorText (App.step st (App.FetchSettled 0 (Wire.delivered r) "10:00:00"))
      = "Error: " +:+ message.
Proof.
  intros st fd r.
  destruct (App.pendingFetch st 0) as [c|] eqn:Hk; [|vm_compute in Hk; discriminate].
  destruct (server_error_reaches_user (Samples.quietSdk "hi") Samples.noDefault fd r
              st 0 c "10:00:00" eq_refl ltac:(discriminate) Hk)
    as (message & H1 & _ & H2 & _).
  exists message. split; [exact H1|exact H2].
Defined.

Section Pressing.
Import Js App.

(** X19.  A press while the component is listening starts nothing: it calls
    [getUserMedia] for no stream, builds no recorder and sends no request;
    it clears the error, and afterwards the component is not listening and
    the button reads [Start Listening]. *)
Theorem listening_press_only_stops st :
  isListening st = true →
  let st' := step st Click in
  isListening st' = false
  ∧ Page.buttonLabel (Page.render st') = "Start Listening"
  ∧ errorText st' = ""
  ∧ acquisitions st' = acquisitions st
  ∧ streams st' = streams st
  ∧ length (recorders st') = length (recorders st)
  ∧ fetches st' = fetches st.
Proof.
  intros H st'. destruct (press_while_listening_starts_nothing st H)
    as (H1 & H2 & H3 & H4 & H5). fold st' in H1, H2, H3, H4, H5.
  split; [done|]. split; [unfold Page.render; simpl; by rewrite H1|].
  split; [|done]. subst st'. simpl. unfold handleToggleListen. simpl. rewrite H.
  destruct (mediaRecorderRef st) as [r|]; simpl; [|done].
  destruct (recorders st !! r) as [rec|]; simpl; [|done].
  by case_bool_decide.
Qed.

(** X20.  When the [stop] event of a recorder fires, every track of its stream
    is stopped once, whatever the buffer holds, also nothing; the other
    streams are not touched; one request is sent; and the recorder has no
    further [stop] event to fire. *)
Theorem stop_event_stops_every_track st r rec s :
  recorders st !! r = Some rec →
  stopQueued rec = true →
  streams st !! rec_stream rec = Some s →
  let st' := step st (StopEvent r) in
  (∃ s', streams st' !! rec_stream rec = Some s'
       ∧ releases s' = S <$> releases s)
  ∧ (∀ j, j ≠ rec_stream rec → streams st' !! j = streams st !! j)
  ∧ length (fetches st') = S (length (fetches st))
  ∧ recorders st' !! r = Some (clearStopQueued rec).
Proof.
  intros Hr Hq Hs st'.
  destruct (stop_event_releases_stream st r rec s Hr Hq Hs) as (s' & H1 & H2 & H3).
  fold st' in H1, H3. split; [eauto|]. split; [done|].
  subst st'. rewrite (step_StopEvent _ _ _ Hr Hq).
  unfold onstop, stopTracks, sendAudioForTranscription. simpl.
  rewrite length_app, list_lookup_alter_eq, Hr. simpl. split; [lia|done].
Qed.
End Pressing.

Lemma listening_press_only_stops_witness :
  let st := App.run App.initial [App.Click; App.GetUserMediaResolved 0 1 App.Started] in
  App.isListening st = true
  ∧ App.acquisitions (App.step st App.Click) = App.acquisitions st
  ∧ length (App.recorders (App.step st App.Click)) = 1.
Proof.
  intros st. split; [reflexivity|].
  destruct (listening_press_only_stops st eq_refl) as (_ & _ & _ & H2 & _ & H4 & _).
  split; [exact H2|exact H4].
Defined.

Lemma stop_event_stops_every_track_witness :
  let st := App.run App.initial
    [App.Click; App.GetUserMediaResolved 0 2 App.Started; App.Click] in
  App.audioChunksRef st = []
  ∧ ∃ s', App.streams (App.step st (App.StopEvent 0)) !! 0 = Some s'
        ∧ App.releases s' = [1; 1].
Proof.
  intros st. split; [reflexivity|].
  destruct (App.recorders st !! 0) as [rec|] eqn:Hrec; [|vm_compute in Hrec; discriminate].
  assert (rec = {| App.rec_state := App.inactive; App.rec_stream := 0;
                   App.rec_token := ""; App.stopQueued := true |}) as ->.
  { vm_compute in Hrec. by injection Hrec as <-. }
  destruct (stop_event_stops_every_track st 0 _
              {| App.tracks := [ {| App.stopCalls := 0 |}; {| App.stopCalls := 0 |} ] |}
              Hrec eq_refl eq_refl) as ((s' & H1 & H2) & _).
  exists s'. split; [exact H1|exact H2].
Defined.
